(** * Time-evolution engine of [state_prep]: a shallow embedding

    The development follows [src/state_prep/simulator.py] and
    [src/state_prep/microwaves.py].  numpy's [float64] and [complex128]
    arithmetic is modelled by exact real and complex arithmetic; numpy
    arrays are modelled by functions of their indices, the extent of each
    axis being passed where numpy reads it from the array's shape. *)

From Stdlib Require Import Reals Lra Lia List Bool Arith ZArith String.
From Stdlib Require Import Permutation FunctionalExtensionality.
Import ListNotations.

Local Open Scope R_scope.

(** ** Complex numbers *)

Record complex : Type := mkC { Re : R; Im : R }.

Definition Czero : complex := mkC 0 0.
Definition Cone : complex := mkC 1 0.
Definition Cimag : complex := mkC 0 1.
Definition RtoC (x : R) : complex := mkC x 0.

Definition Cadd (a b : complex) : complex := mkC (Re a + Re b) (Im a + Im b).
Definition Cneg (a : complex) : complex := mkC (- Re a) (- Im a).
Definition Cmul (a b : complex) : complex :=
  mkC (Re a * Re b - Im a * Im b) (Re a * Im b + Im a * Re b).
Definition Cconj (a : complex) : complex := mkC (Re a) (- Im a).

(** [np.abs] on a complex number. *)
Definition Cabs (a : complex) : R := sqrt (Re a * Re a + Im a * Im a).

(** [np.exp] on a complex number. *)
Definition Cexp (a : complex) : complex :=
  mkC (exp (Re a) * cos (Im a)) (exp (Re a) * sin (Im a)).

Declare Scope cplx_scope.
Delimit Scope cplx_scope with C.
Infix "+" := Cadd : cplx_scope.
Infix "*" := Cmul : cplx_scope.
Notation "- z" := (Cneg z) : cplx_scope.
Notation "z ^*" := (Cconj z) (at level 1, format "z ^*") : cplx_scope.

(** ** Arrays *)

Definition Rvec : Type := nat -> R.
Definition Cvec : Type := nat -> complex.
Definition RMat : Type := nat -> nat -> R.
Definition Mat : Type := nat -> nat -> complex.

(** Sum of [f 0 .. f (n-1)]. *)
Fixpoint Csum (n : nat) (f : nat -> complex) : complex :=
  match n with
  | O => Czero
  | S k => (Csum k f + f k)%C
  end.

Fixpoint Rsum (n : nat) (f : nat -> R) : R :=
  match n with
  | O => 0
  | S k => Rsum k f + f k
  end.

(** Sum of a list of complex numbers. *)
Fixpoint Clsum (l : list complex) : complex :=
  match l with
  | [] => Czero
  | x :: r => (x + Clsum r)%C
  end.

(** [A @ B] for square arrays of extent [n]. *)
Definition matmul (n : nat) (A B : Mat) : Mat :=
  fun i j => Csum n (fun k => (A i k * B k j)%C).

(** [A.conj().T] *)
Definition dagger (A : Mat) : Mat := fun i j => (A j i)^*%C.

(** [A.T] *)
Definition transpose (A : Mat) : Mat := fun i j => A j i.

(** [np.diag(v)] *)
Definition diag (v : Cvec) : Mat := fun i j => if Nat.eqb i j then v i else Czero.

Definition eye : Mat := diag (fun _ => Cone).

(** [A + B] *)
Definition Madd (A B : Mat) : Mat := fun i j => (A i j + B i j)%C.

(** A real array used where a complex one is expected. *)
Definition RtoM (A : RMat) : Mat := fun i j => RtoC (A i j).

(** [np.exp(-1j * D * dt)] *)
Definition phases (D : Rvec) (dt : R) : Cvec :=
  fun k => Cexp ((- Cimag) * RtoC (D k) * RtoC dt)%C.

(** [A * phase[np.newaxis, :]]: column [j] of [A] times [phase[j]]. *)
Definition scale_columns (A : Mat) (phase : Cvec) : Mat :=
  fun i j => (A i j * phase j)%C.

(** [np.einsum("ij,kj->ki", U, psis)] *)
Definition einsum_ij_kj_ki (n : nat) (U : Mat) (psis : Mat) : Mat :=
  fun k i => Csum n (fun j => (U i j * psis k j)%C).

(** [A[:, index]] and [v[index]] for an index array. *)
Definition take_columns (A : Mat) (index : list nat) : Mat :=
  fun i j => A i (nth j index O).
Definition take_entries (v : Rvec) (index : list nat) : Rvec :=
  fun j => v (nth j index O).

(** Equality of arrays on their extent. *)
Definition Meq (m n : nat) (A B : Mat) : Prop :=
  forall i j, (i < m)%nat -> (j < n)%nat -> A i j = B i j.
Definition unitary (n : nat) (V : Mat) : Prop :=
  Meq n n (matmul n (dagger V) V) eye /\ Meq n n (matmul n V (dagger V)) eye.

(** [(D, V)] is an eigensystem of [M]: [V] is unitary and
    [M V = V diag(D)]. *)
Definition eigensystem (n : nat) (M : Mat) (DV : Rvec * Mat) : Prop :=
  unitary n (snd DV) /\
  Meq n n (matmul n M (snd DV))
          (matmul n (snd DV) (diag (fun k => RtoC (fst DV k)))).



(** Squared norm and norm of a state vector. *)
Definition norm2 (n : nat) (psi : Cvec) : R :=
  Rsum n (fun j => Cabs (psi j) ^ 2).
Definition norm (n : nat) (psi : Cvec) : R := sqrt (norm2 n psi).

(** ** The Python side: exceptions, observable events, values *)

Inductive exn : Type :=
| AttributeError (cls attr : string)
| TypeError (msg : string)
| NameError (name : string)
| IndexError (msg : string)
| AssertionError (msg : string).

(** Calls into LAPACK / numpy's eigensolvers and writes to stdout. *)
Inductive event : Type :=
| Call_zheevd (M : Mat)
| Call_eigh (M : Mat)
| Print (s : string).

(** A computation either raises or returns, and leaves a log of events. *)
Definition Py (A : Type) : Type := ((exn + A) * list event)%type.

Definition ret {A : Type} (a : A) : Py A := (inr a, []).
Definition raise {A : Type} (e : exn) : Py A := (inl e, []).
Definition emit (ev : event) : Py unit := (inr tt, [ev]).
Definition bind {A B : Type} (c : Py A) (k : A -> Py B) : Py B :=
  match c with
  | (inl e, l) => (inl e, l)
  | (inr a, l) => let (r, l') := k a in (r, l ++ l')
  end.

Notation "x <- c ;; k" := (bind c (fun x => k))
  (at level 61, c at next level, right associativity).
Notation "' p <- c ;; k" := (bind c (fun x => let p := x in k))
  (at level 61, p pattern, c at next level, right associativity).
Notation "c ;;; k" := (bind c (fun _ => k))
  (at level 61, right associativity).

(** [for x in xs: s = body(s, x)] *)
Fixpoint for_each {S X : Type} (xs : list X) (body : S -> X -> Py S) (s : S)
  : Py S :=
  match xs with
  | [] => ret s
  | x :: rest => s' <- body s x ;; for_each rest body s'
  end.

(** [enumerate(xs)] *)
Definition enumerate {X : Type} (xs : list X) : list (nat * X) :=
  combine (seq 0 (List.length xs)) xs.

(** [a[i] = v] on the first axis of an array. *)
Definition upd {T : Type} (a : nat -> T) (i : nat) (v : T) : nat -> T :=
  fun k => if Nat.eqb k i then v else a k.

(** [A[i, j] = v] *)
Definition upd2 {T : Type} (A : nat -> nat -> T) (i j : nat) (v : T)
  : nat -> nat -> T :=
  fun a b => if (Nat.eqb a i && Nat.eqb b j)%bool then v else A a b.

(** ** External collaborators (interfaces only) *)

(** A basis state of [hamiltonian.QN]; the engine reads its [J] only. *)
Record BasisState : Type := { J : Z }.

(** A physical state, given by its vector in a basis. *)
Record State : Type := { state_vector : list BasisState -> Cvec }.

Record Trajectory : Type :=
  { get_T : R;
    R_t : R -> nat -> R;
    Vini : nat -> R;
    Rini : nat -> R }.

Record ElectricField : Type :=
  { get_E_t_func : (R -> nat -> R) -> R -> nat -> R }.

Record MagneticField : Type :=
  { get_B_t_func : (R -> nat -> R) -> R -> nat -> R }.

Record Hamiltonian : Type :=
  { QN : list BasisState;
    get_H_t_func : R -> Mat }.

(** ** microwaves.py *)

Record MWSpatialDependence : Type := { I_R : (nat -> R) -> R }.

Record MicrowaveField : Type :=
  { Jg : Z;
    Je : Z;
    spatial_dep : MWSpatialDependence;
    muW_freq : R;
    H_list : option (list Mat);
    D : option RMat }.

(** [MicrowaveField.__init__] *)
Definition MicrowaveField_init (Jg Je : Z) (spatial_dep : MWSpatialDependence)
  (muW_freq : R) : MicrowaveField :=
  {| Jg := Jg; Je := Je; spatial_dep := spatial_dep; muW_freq := muW_freq;
     H_list := None; D := None |}.

Inductive value : Type :=
| VNone
| VReal (x : R)
| VQN (qn : list BasisState)
| VPath (f : R -> nat -> R)
| VFun (f : R -> Mat)
| VTrajectory (x : Trajectory)
| VElectricField (x : ElectricField)
| VMagneticField (x : MagneticField)
| VStates (x : list State)
| VHamiltonian (x : Hamiltonian)
| VMicrowaveFields (x : option (list MicrowaveField))
| VTimes (x : list R)
| VArr3C (x : nat -> Mat)
| VArr2R (x : nat -> Rvec)
| VArr3R (x : nat -> RMat)
| VMat (x : Mat).

Fixpoint lookup {T : Type} (k : string) (d : list (string * T)) : option T :=
  match d with
  | [] => None
  | (k', v) :: rest => if String.eqb k k' then Some v else lookup k rest
  end.

Definition mem (k : string) (ks : list string) : bool :=
  existsb (String.eqb k) ks.

(** Binding of the positional and keyword arguments of a call to the
    parameters of the callee after [self]. *)
Fixpoint bind_keywords (params : list string) (bound : list (string * value))
  (kwargs : list (string * value)) : exn + list (string * value) :=
  match kwargs with
  | [] => inr bound
  | (k, v) :: rest =>
      if negb (mem k params) then
        inl (TypeError (String.append "got an unexpected keyword argument " k))
      else if mem k (map fst bound) then
        inl (TypeError (String.append "got multiple values for argument " k))
      else bind_keywords params (bound ++ [(k, v)]) rest
  end.

Definition bind_params (params : list string) (args : list value)
  (kwargs : list (string * value)) : Py (list (string * value)) :=
  if (List.length params <? List.length args)%nat then
    raise (TypeError "too many positional arguments")
  else
    match bind_keywords params (combine params args) kwargs with
    | inl e => raise e
    | inr bound =>
        if forallb (fun p => mem p (map fst bound)) params then ret bound
        else raise (TypeError "missing required positional argument")
    end.

(** The local array [D] that [generate_D] fills in. *)
Definition generate_D_shift (self : MicrowaveField) (QN : list BasisState)
  : RMat :=
  let Je := Je self in
  let omega := 2 * PI * muW_freq self in
  fold_left
    (fun (D : RMat) (i : nat) =>
       if Z.eqb (J (nth i QN {| J := 0 |})) Je then upd2 D i i (- omega)
       else D)
    (seq 0 (List.length QN))
    (fun _ _ => 0).

(** [MicrowaveField.generate_D(self, QN)]: the array is built in a local
    and the method ends; no attribute of [self] is assigned. *)
Definition generate_D (self : MicrowaveField) (QN : list BasisState)
  : Py (MicrowaveField * value) :=
  let D := generate_D_shift self QN in
  ret (self, VNone).

(** [MicrowaveField.generate_coupling_matrices(self, QN)]: the first
    statement after the two reads of [self] names [QuantumSelector], which
    the module neither defines nor imports. *)
Definition generate_coupling_matrices (self : MicrowaveField)
  (QN : list BasisState) : Py (MicrowaveField * value) :=
  raise (NameError "QuantumSelector").

Definition MicrowaveField_attributes : list string :=
  ["Jg"; "Je"; "spatial_dep"; "muW_freq"; "H_list"; "D"]%string.

(** A method call [self.name(args, kwargs)] on a [MicrowaveField]. *)
Definition MicrowaveField_call (self : MicrowaveField) (name : string)
  (args : list value) (kwargs : list (string * value))
  : Py (MicrowaveField * value) :=
  if String.eqb name "generate_coupling_matrices" then
    bound <- bind_params ["QN"%string] args kwargs ;;
    match lookup "QN" bound with
    | Some (VQN qn) => generate_coupling_matrices self qn
    | _ => raise (NameError "QuantumSelector")
    end
  else if String.eqb name "generate_D" then
    bound <- bind_params ["QN"%string] args kwargs ;;
    match lookup "QN" bound with
    | Some (VQN qn) => generate_D self qn
    | _ => raise (TypeError "object has no len()")
    end
  else if mem name MicrowaveField_attributes then
    raise (TypeError "object is not callable")
  else raise (AttributeError "MicrowaveField" name).

(** ** numpy helpers *)

(** [np.linspace(start, stop, num)]: [arange(0, num) * step + start] with
    [step = (stop - start) / (num - 1)], the last sample then set to
    [stop] when [num > 1]. *)
Definition linspace (start stop : R) (num : nat) : list R :=
  let step := (stop - start) / INR (num - 1) in
  let y := map (fun i => INR i * step + start) (seq 0 num) in
  if (1 <? num)%nat then removelast y ++ [stop] else y.

(** [np.isclose(a, b)] with the default tolerances. *)
Definition isclose (a b : R) : bool :=
  if Rle_dec (Rabs (a - b)) (1 / 10 ^ 8 + 1 / 10 ^ 5 * Rabs b)
  then true else false.

(** [x != 0] on a float. *)
Definition nonzero (x : R) : bool := if Req_dec_T x 0 then false else true.

(** [np.any] over an [n] by [n] boolean array. *)
Definition np_any (n : nat) (b : nat -> nat -> bool) : bool :=
  existsb (fun i => existsb (fun j => b i j) (seq 0 n)) (seq 0 n).

(** [sum(xs)] on a Python list of floats. *)
Definition py_sum (xs : list R) : R := fold_left Rplus xs 0.

(** [np.array(rows)] for a list of vectors. *)
Definition np_array (rows : list Cvec) : Mat :=
  fun k => nth k rows (fun _ => Czero).

(** [V[:, idx]] *)
Definition column (V : Mat) (idx : nat) : Cvec := fun i => V i idx.

(** ** utils.py *)

(** First index among [best :: cands] at which [f] is largest. *)
Fixpoint argmax_from (f : nat -> R) (best : nat) (cands : list nat) : nat :=
  match cands with
  | [] => best
  | j :: rest =>
      if Rlt_dec (f best) (f j) then argmax_from f j rest
      else argmax_from f best rest
  end.

(** Modelled from the spec: [utils.find_max_overlap_idx], which is not
    among the sources.  The spec (4.6) selects the eigenvector column
    maximizing the overlap magnitude with the declared state's vector, a
    single best match. *)
Definition find_max_overlap_idx (n : nat) (state_vec : Cvec) (V : Mat) : nat :=
  argmax_from
    (fun j => Cabs (Csum n (fun i => ((state_vec i)^* * V i j)%C)))
    O (seq 1 (n - 1)).

(** [O = |V_ref^dagger V|^2] *)
Definition overlap_matrix (n : nat) (V_ref V : Mat) : RMat :=
  fun k j => Cabs (matmul n (dagger V_ref) V k j) ^ 2.

(** For each reference column in order, the not yet assigned column of
    largest overlap. *)
Fixpoint greedy_assign (O : RMat) (ks : list nat) (unused : list nat)
  : list nat :=
  match ks with
  | [] => []
  | k :: ks' =>
      match unused with
      | [] => []
      | j0 :: rest =>
          let j := argmax_from (O k) j0 rest in
          j :: greedy_assign O ks' (remove Nat.eq_dec j unused)
      end
  end.

Definition reorder_index (n : nat) (V_in V_ref : Mat) : list nat :=
  greedy_assign (overlap_matrix n V_ref V_in) (seq 0 n) (seq 0 n).

(** Modelled from the spec: [utils.reorder_evecs], which is not among the
    sources.  The spec (4.2) computes the overlap matrix of the reference
    columns with the new columns and assigns to each reference column, in
    order, the new column of maximum overlap among those not yet assigned;
    eigenvalues and eigenvector columns are permuted alike. *)
Definition reorder_evecs (n : nat) (V_in : Mat) (E_in : Rvec) (V_ref : Mat)
  : Rvec * Mat :=
  let index := reorder_index n V_in V_ref in
  (take_entries E_in index, take_columns V_in index).

(** ** simulator.py: SimulationResult *)

(** An instance is its attribute dictionary. *)
Definition SimulationResult : Type := list (string * value).

(** The dataclass constructor followed by [__post_init__]. *)
Definition SimulationResult_init
  (trajectory : Trajectory) (electric_field : ElectricField)
  (magnetic_field : MagneticField) (initial_states : list State)
  (hamiltonian : Hamiltonian)
  (microwave_fields : option (list MicrowaveField))
  (t_array : list R) (psis : nat -> Mat) (energies : nat -> Rvec)
  (probabilities : nat -> RMat) (V_ini V_fin : Mat) : SimulationResult :=
  let self :=
    [ ("trajectory", VTrajectory trajectory);
      ("electric_field", VElectricField electric_field);
      ("magnetic_field", VMagneticField magnetic_field);
      ("initial_states", VStates initial_states);
      ("hamiltonian", VHamiltonian hamiltonian);
      ("microwave_fields", VMicrowaveFields microwave_fields);
      ("t_array", VTimes t_array);
      ("psis", VArr3C psis);
      ("energies", VArr2R energies);
      ("probabilities", VArr3R probabilities);
      ("V_ini", VMat V_ini);
      ("V_fin", VMat V_fin) ]%string in
  self ++
  [ ("z_array"%string,
     VTimes (map (fun t => t * Vini trajectory 2 + Rini trajectory 2)
                 t_array)) ].

(** [self.name] for a data attribute of a result. *)
Definition SimulationResult_getattr (self : SimulationResult) (name : string)
  : Py value :=
  match lookup name self with
  | Some v => ret v
  | None => raise (AttributeError "SimulationResult" name)
  end.

Definition as_QN (v : value) : Py (list BasisState) :=
  match v with
  | VHamiltonian h => ret (QN h)
  | _ => raise (AttributeError "object" "QN")
  end.

Definition as_Mat (v : value) : Py Mat :=
  match v with
  | VMat V => ret V
  | _ => raise (TypeError "not an array")
  end.

(** [a[:, index]] on a two-axis real array. *)
Definition slice_column (v : value) (index : nat) : Py Rvec :=
  match v with
  | VArr2R a => ret (fun t => a t index)
  | _ => raise (TypeError "object is not subscriptable")
  end.

(** [find_max_overlap_idx(state.state_vector(self.hamiltonian.QN), self.V_ini)] *)
Definition result_index_state (self : SimulationResult) (state : State)
  : Py nat :=
  h <- SimulationResult_getattr self "hamiltonian" ;;
  qn <- as_QN h ;;
  v <- SimulationResult_getattr self "V_ini" ;;
  V_ini <- as_Mat v ;;
  ret (find_max_overlap_idx (List.length qn) (state_vector state qn) V_ini).

Definition get_state_energy (self : SimulationResult) (state : State)
  : Py Rvec :=
  index_state <- result_index_state self state ;;
  e <- SimulationResult_getattr self "energies" ;;
  slice_column e index_state.

Definition get_state_energy_diabatic (self : SimulationResult) (state : State)
  : Py Rvec :=
  index_state <- result_index_state self state ;;
  e <- SimulationResult_getattr self "energies_diabatic" ;;
  slice_column e index_state.

(** ** simulator.py: Simulator *)

Record Simulator : Type :=
  { trajectory : Trajectory;
    electric_field : ElectricField;
    magnetic_field : MagneticField;
    initial_states_approx : list State;
    hamiltonian : Hamiltonian;
    microwave_fields : option (list MicrowaveField);
    psis : Mat;
    initial_states : list State }.

(** The dataclass constructor followed by [__post_init__], which sets
    [self.psis = np.array([])] and [self.initial_states = []]. *)
Definition Simulator_init (trajectory : Trajectory)
  (electric_field : ElectricField) (magnetic_field : MagneticField)
  (initial_states_approx : list State) (hamiltonian : Hamiltonian)
  (microwave_fields : option (list MicrowaveField)) : Simulator :=
  {| trajectory := trajectory;
     electric_field := electric_field;
     magnetic_field := magnetic_field;
     initial_states_approx := initial_states_approx;
     hamiltonian := hamiltonian;
     microwave_fields := microwave_fields;
     psis := np_array [];
     initial_states := [] |}.

(** [self.psis = psis; self.initial_states = initial_states] *)
Definition set_states (self : Simulator) (psis : Mat)
  (initial_states : list State) : Simulator :=
  {| trajectory := trajectory self;
     electric_field := electric_field self;
     magnetic_field := magnetic_field self;
     initial_states_approx := initial_states_approx self;
     hamiltonian := hamiltonian self;
     microwave_fields := microwave_fields self;
     psis := psis;
     initial_states := initial_states |}.

Definition set_psis (self : Simulator) (psis : Mat) : Simulator :=
  set_states self psis (initial_states self).

(** The variables of the step loops that live across iterations. *)
Record loop_vars : Type :=
  { l_self : Simulator;
    l_V_ref : Mat;
    l_psis_t : nat -> Mat;
    l_energies : nat -> Rvec;
    l_probabilities : nat -> RMat }.


(** What [_time_evolve] and [_time_evolve_mu] return:
    [psis_t, energies, probabilities, V_ref_ini, V_ref]. *)
Definition evolution : Type :=
  ((nat -> Mat) * (nat -> Rvec) * (nat -> RMat) * Mat * Mat)%type.

(** [Simulator.calculate_probabilities] *)
Definition calculate_probabilities (n : nat) (psis : Mat) (V : Mat) : RMat :=
  let overlaps := einsum_ij_kj_ki n (dagger V) psis in
  fun k i => Cabs (overlaps k i) ^ 2.

(** [U_dt = V @ np.diag(np.exp(-1j * D * dt)) @ V.conj().T] *)
Definition propagator (n : nat) (D : Rvec) (V : Mat) (dt : R) : Mat :=
  matmul n (matmul n V (diag (phases D dt))) (dagger V).

(** The propagator of the rotating-frame step, built without an explicit
    diagonal matrix. *)
Definition propagator_mu (n : nat) (V : Mat) (D_rot : Rvec) (V_rot : Mat)
  (dt : R) : Mat :=
  let A := matmul n V V_rot in
  let phase := phases D_rot dt in
  let A_phase := scale_columns A phase in
  matmul n A_phase (dagger A).

(** [H_rot = V.conj().T @ (H_slow_i + H_mu_i) @ V + D_mu] *)
Definition rotating_frame (n : nat) (V H_slow_i H_mu_i : Mat) (D_mu : RMat)
  : Mat :=
  Madd (matmul n (matmul n (dagger V) (Madd H_slow_i H_mu_i)) V) (RtoM D_mu).

(** [np.any((D_mu != 0) & (microwave_field.D != 0))]; an attribute still
    [None] compares unequal to 0. *)
Definition frame_conflict (n : nat) (D_mu : RMat) (D : option RMat) : bool :=
  match D with
  | Some Dm => np_any n (fun i j => nonzero (D_mu i j) && nonzero (Dm i j))
  | None => np_any n (fun i j => nonzero (D_mu i j) && true)
  end.

(** Calling an element of [muw_hams]. *)
Definition call_value (v : value) (t : R) : Py Mat :=
  match v with
  | VFun f => ret (f t)
  | _ => raise (TypeError "object is not callable")
  end.

(** The closure [H_mu_tot_t] of [run]. *)
Definition H_mu_tot_t (muw_hams : list value) (t : R) : Py Mat :=
  match muw_hams with
  | [] => raise (IndexError "list index out of range")
  | h0 :: rest =>
      H_mu_tot <- call_value h0 t ;;
      for_each rest
        (fun H_mu_tot H_mu_t => H <- call_value H_mu_t t ;;
                                ret (Madd H_mu_tot H))
        H_mu_tot
  end.

Section Engine.

(** [scipy.linalg.lapack.zheevd], [np.linalg.eigh], [np.argsort] on an
    array of the given length, and [utils.vector_to_state]. *)
Variable zheevd : Mat -> Rvec * Mat * Z.
Variable eigh : Mat -> Rvec * Mat.
Variable argsort : nat -> Rvec -> list nat.
Variable vector_to_state : Cvec -> list BasisState -> State.

Definition call_zheevd (M : Mat) : Py (Rvec * Mat * Z) :=
  (inr (zheevd M), [Call_zheevd M]).
Definition call_eigh (M : Mat) : Py (Rvec * Mat) :=
  (inr (eigh M), [Call_eigh M]).

(** [D, V, info = zheevd(H); if info != 0: D, V = np.linalg.eigh(H)] *)
Definition diagonalize (H : Mat) : Py (Rvec * Mat) :=
  '(D, V, info) <- call_zheevd H ;;
  if negb (Z.eqb info 0) then call_eigh H else ret (D, V).

(** The same for [H_rot], which also reports the fallback on stdout. *)
Definition diagonalize_rot (H_rot : Mat) : Py (Rvec * Mat) :=
  '(D_rot, V_rot, info_rot) <- call_zheevd H_rot ;;
  if negb (Z.eqb info_rot 0) then
    emit (Print "zheevd didn't work for H_rot") ;;; call_eigh H_rot
  else ret (D_rot, V_rot).

(** The eigensystem a step works with: the value of [diagonalize]. *)
Definition eig_slow (H : Mat) : Rvec * Mat :=
  let '(D, V, info) := zheevd H in
  if negb (Z.eqb info 0) then eigh H else (D, V).

(** The value of [diagonalize_rot]. *)
Definition eig_rot (H_rot : Mat) : Rvec * Mat :=
  let '(D_rot, V_rot, info_rot) := zheevd H_rot in
  if negb (Z.eqb info_rot 0) then eigh H_rot else (D_rot, V_rot).

(** The status [zheevd] reports for a matrix. *)
Definition zheevd_info (H : Mat) : Z := snd (zheevd H).

(** Events of one call of [diagonalize] and of [diagonalize_rot]. *)
Definition diag_events (H : Mat) : list event :=
  Call_zheevd H ::
  (if negb (Z.eqb (zheevd_info H) 0) then [Call_eigh H] else []).

Definition diag_rot_events (H_rot : Mat) : list event :=
  Call_zheevd H_rot ::
  (if negb (Z.eqb (zheevd_info H_rot) 0)
   then [Print "zheevd didn't work for H_rot"; Call_eigh H_rot] else []).

(** Lines 339 to 347 of [init_state_vecs]: the eigenvector of largest
    overlap for each approximate initial state. *)
Definition resolve_initial_states (self : Simulator) (V : Mat) : Simulator :=
  let QN := QN (hamiltonian self) in
  let idx state :=
    find_max_overlap_idx (List.length QN) (state_vector state QN) V in
  let psis := map (fun state => column V (idx state))
                  (initial_states_approx self) in
  let initial_states :=
    map (fun state => vector_to_state (column V (idx state)) QN)
        (initial_states_approx self) in
  set_states self (np_array psis) initial_states.

(** [Simulator.init_state_vecs] *)
Definition init_state_vecs (self : Simulator) (H_0 : Mat) : Py Simulator :=
  '(_, V) <- call_eigh H_0 ;;
  ret (resolve_initial_states self V).

(** The containers of [_init_results_containers] with their first row
    filled from the eigensystem [(D, V)] at the initial time. *)
Definition initial_containers (self : Simulator) (DV : Rvec * Mat)
  : (nat -> Mat) * (nat -> Rvec) * (nat -> RMat) :=
  let '(D, V) := DV in
  let n := List.length (QN (hamiltonian self)) in
  let psis_t : nat -> Mat := fun _ _ _ => Czero in
  let psis_t := upd psis_t 0 (psis self) in
  let energies : nat -> Rvec := fun _ _ => 0 in
  let probabilities : nat -> RMat := fun _ _ _ => 0 in
  let energies := upd energies 0 D in
  let probabilities :=
    upd probabilities 0 (calculate_probabilities n (psis self) V) in
  (psis_t, energies, probabilities).

(** [Simulator._init_results_containers] *)
Definition _init_results_containers (self : Simulator) (t_array : list R)
  (H_tini : Mat) : Py ((nat -> Mat) * (nat -> Rvec) * (nat -> RMat)) :=
  DV <- call_eigh H_tini ;;
  ret (initial_containers self DV).

(** Lines 382 to 399: what an iteration of [_time_evolve] does with the
    eigensystem [(D, V)] of its sample. *)
Definition _time_evolve_update (t_array : list R) (V_ref_ini : Mat)
  (s : loop_vars * (nat -> Rvec)) (i : nat) (DV : Rvec * Mat)
  : loop_vars * (nat -> Rvec) :=
  let '(vars, energies_diabatic) := s in
  let '(D, V) := DV in
  let self := l_self vars in
  let n := List.length (QN (hamiltonian self)) in
  let dt := nth (i + 1) t_array 0 - nth i t_array 0 in
  let '(Es, evecs) := reorder_evecs n V D (l_V_ref vars) in
  let '(Es_diabatic, _) := reorder_evecs n V D V_ref_ini in
  let U_dt := propagator n D V dt in
  let self := set_psis self (einsum_ij_kj_ki n U_dt (psis self)) in
  ({| l_self := self;
      l_V_ref := evecs;
      l_psis_t := upd (l_psis_t vars) (i + 1) (psis self);
      l_energies := upd (l_energies vars) (i + 1) Es;
      l_probabilities :=
        upd (l_probabilities vars) (i + 1)
            (calculate_probabilities n (psis self) evecs) |},
   upd energies_diabatic (i + 1) Es_diabatic).

(** One iteration of the loop of [_time_evolve]. *)
Definition _time_evolve_step (H_slow : R -> Mat) (t_array : list R)
  (V_ref_ini : Mat) (s : loop_vars * (nat -> Rvec)) (it : nat * R)
  : Py (loop_vars * (nat -> Rvec)) :=
  let '(i, t) := it in
  let H_slow_i := H_slow t in
  DV <- diagonalize H_slow_i ;;
  ret (_time_evolve_update t_array V_ref_ini s i DV).

(** [Simulator._time_evolve] *)
Definition _time_evolve (self : Simulator) (H_slow : R -> Mat)
  (t_array : list R) : Py (Simulator * evolution) :=
  match t_array with
  | [] => raise (IndexError "index 0 is out of bounds")
  | t0 :: _ =>
      let H_tini := H_slow t0 in
      self <- init_state_vecs self H_tini ;;
      '(psis_t, energies, probabilities) <-
        _init_results_containers self t_array H_tini ;;
      let energies_diabatic := energies in
      '(E_ref, V_ref) <- call_eigh H_tini ;;
      let V_ref_ini := V_ref in
      '(vars, energies_diabatic) <-
        for_each (enumerate (removelast t_array))
          (_time_evolve_step H_slow t_array V_ref_ini)
          ({| l_self := self; l_V_ref := V_ref; l_psis_t := psis_t;
              l_energies := energies; l_probabilities := probabilities |},
           energies_diabatic) ;;
      ret (l_self vars,
           (l_psis_t vars, l_energies vars, l_probabilities vars,
            V_ref_ini, l_V_ref vars))
  end.

(** [index = np.argsort(D); D = D[index]; V = V[:, index]] *)
Definition sort_eig (n : nat) (DV : Rvec * Mat) : Rvec * Mat :=
  let '(D, V) := DV in
  let index := argsort n D in
  (take_entries D index, take_columns V index).

(** Lines 460 to 487: what an iteration of [_time_evolve_mu] does with
    the sorted eigensystem [(D, V)] of the slow Hamiltonian and the
    eigensystem [(D_rot, V_rot)] of [H_rot]. *)
Definition _time_evolve_mu_update (t_array : list R) (vars : loop_vars)
  (i : nat) (DV : Rvec * Mat) (DV_rot : Rvec * Mat) : loop_vars :=
  let '(D, V) := DV in
  let '(D_rot, V_rot) := DV_rot in
  let self := l_self vars in
  let n := List.length (QN (hamiltonian self)) in
  let dt := nth (i + 1) t_array 0 - nth i t_array 0 in
  let '(Es, evecs) := reorder_evecs n V D (l_V_ref vars) in
  let U_dt := propagator_mu n V D_rot V_rot dt in
  let self := set_psis self (matmul n (psis self) (transpose U_dt)) in
  {| l_self := self;
     l_V_ref := evecs;
     l_psis_t := upd (l_psis_t vars) (i + 1) (psis self);
     l_energies := upd (l_energies vars) (i + 1) Es;
     l_probabilities :=
       upd (l_probabilities vars) (i + 1)
           (calculate_probabilities n (psis self) evecs) |}.

(** One iteration of the loop of [_time_evolve_mu]. *)
Definition _time_evolve_mu_step (H_slow_t : R -> Mat) (H_mu_t : R -> Py Mat)
  (D_mu : RMat) (t_array : list R) (vars : loop_vars) (it : nat * R)
  : Py loop_vars :=
  let '(i, t) := it in
  let n := List.length (QN (hamiltonian (l_self vars))) in
  let H_slow_i := H_slow_t t in
  H_mu_i <- H_mu_t t ;;
  DV <- diagonalize H_slow_i ;;
  let DV := sort_eig n DV in
  let H_rot := rotating_frame n (snd DV) H_slow_i H_mu_i D_mu in
  DV_rot <- diagonalize_rot H_rot ;;
  ret (_time_evolve_mu_update t_array vars i DV DV_rot).

(** [Simulator._time_evolve_mu] *)
Definition _time_evolve_mu (self : Simulator) (H_slow_t : R -> Mat)
  (H_mu_t : R -> Py Mat) (D_mu : RMat) (t_array : list R)
  : Py (Simulator * evolution) :=
  match t_array with
  | [] => raise (IndexError "index 0 is out of bounds")
  | t0 :: _ =>
      let n := List.length (QN (hamiltonian self)) in
      let H_tini := H_slow_t t0 in
      self <- init_state_vecs self H_tini ;;
      '(psis_t, energies, probabilities) <-
        _init_results_containers self t_array H_tini ;;
      ref <- call_eigh H_tini ;;
      let '(E_ref, V_ref) := sort_eig n ref in
      let V_ref_ini := V_ref in
      vars <-
        for_each (enumerate (removelast t_array))
          (_time_evolve_mu_step H_slow_t H_mu_t D_mu t_array)
          {| l_self := self; l_V_ref := V_ref; l_psis_t := psis_t;
             l_energies := energies; l_probabilities := probabilities |} ;;
      ret (l_self vars,
           (l_psis_t vars, l_energies vars, l_probabilities vars,
            V_ref_ini, l_V_ref vars))
  end.

(** The loop variables of [_time_evolve] on entry to its loop. *)
Definition loop_entry (self : Simulator) (H_tini : Mat)
  : loop_vars * (nat -> Rvec) :=
  let self := resolve_initial_states self (snd (eigh H_tini)) in
  let '(psis_t, energies, probabilities) :=
    initial_containers self (eigh H_tini) in
  ({| l_self := self; l_V_ref := snd (eigh H_tini); l_psis_t := psis_t;
      l_energies := energies; l_probabilities := probabilities |},
   energies).

(** The loop variables of [_time_evolve_mu] on entry to its loop. *)
Definition loop_entry_mu (self : Simulator) (H_tini : Mat) : loop_vars :=
  let n := List.length (QN (hamiltonian self)) in
  let self := resolve_initial_states self (snd (eigh H_tini)) in
  let '(psis_t, energies, probabilities) :=
    initial_containers self (eigh H_tini) in
  {| l_self := self; l_V_ref := snd (sort_eig n (eigh H_tini));
     l_psis_t := psis_t; l_energies := energies;
     l_probabilities := probabilities |}.

(** For comparison with [_time_evolve_update]: the same iteration with
    the propagator built from the reordered eigenbasis [(Es, evecs)]
    instead of the eigensolver's output [(D, V)]. *)
Definition _time_evolve_update_relabelled (t_array : list R)
  (V_ref_ini : Mat) (s : loop_vars * (nat -> Rvec)) (i : nat)
  (DV : Rvec * Mat) : loop_vars * (nat -> Rvec) :=
  let '(vars, energies_diabatic) := s in
  let '(D, V) := DV in
  let self := l_self vars in
  let n := List.length (QN (hamiltonian self)) in
  let dt := nth (i + 1) t_array 0 - nth i t_array 0 in
  let '(Es, evecs) := reorder_evecs n V D (l_V_ref vars) in
  let '(Es_diabatic, _) := reorder_evecs n V D V_ref_ini in
  let U_dt := propagator n Es evecs dt in
  let self := set_psis self (einsum_ij_kj_ki n U_dt (psis self)) in
  ({| l_self := self;
      l_V_ref := evecs;
      l_psis_t := upd (l_psis_t vars) (i + 1) (psis self);
      l_energies := upd (l_energies vars) (i + 1) Es;
      l_probabilities :=
        upd (l_probabilities vars) (i + 1)
            (calculate_probabilities n (psis self) evecs) |},
   upd energies_diabatic (i + 1) Es_diabatic).

(** For comparison with [_time_evolve_step]: the iteration that builds
    its propagator from the reordered eigenbasis. *)
Definition _time_evolve_step_relabelled (H_slow : R -> Mat)
  (t_array : list R) (V_ref_ini : Mat) (s : loop_vars * (nat -> Rvec))
  (it : nat * R) : Py (loop_vars * (nat -> Rvec)) :=
  let '(i, t) := it in
  let H_slow_i := H_slow t in
  DV <- diagonalize H_slow_i ;;
  ret (_time_evolve_update_relabelled t_array V_ref_ini s i DV).

(** One iteration of the loop of [run] over [self.microwave_fields]. *)
Definition run_frame_step (self : Simulator)
  (s : RMat * list value * list R) (microwave_field : MicrowaveField)
  : Py (RMat * list value * list R) :=
  let '(D_mu, muw_hams, omegas) := s in
  let QN := QN (hamiltonian self) in
  '(microwave_field, H_t_func) <-
    MicrowaveField_call microwave_field "get_H_t_func"
      [VPath (R_t (trajectory self)); VQN QN] [] ;;
  let muw_hams := muw_hams ++ [H_t_func] in
  if negb (existsb (isclose (2 * PI * muW_freq microwave_field)) omegas)
  then
    let omegas := omegas ++ [2 * PI * muW_freq microwave_field] in
    '(microwave_field, _) <-
      MicrowaveField_call microwave_field "generate_D"
        [VQN QN] [("omega"%string, VReal (py_sum omegas))] ;;
    if frame_conflict (List.length QN) D_mu (D microwave_field) then
      raise (AssertionError
        "Rotating frame transform failed, coupling already present between same levels.")
    else
      match D microwave_field with
      | Some Dm => ret (fun i j => D_mu i j + Dm i j, muw_hams, omegas)
      | None => raise (TypeError "unsupported operand type(s) for +=")
      end
  else ret (D_mu, muw_hams, omegas).

(** [Simulator.run] *)
Definition run (self : Simulator) (N_steps : nat)
  : Py (Simulator * SimulationResult) :=
  let T := get_T (trajectory self) in
  let E_t := get_E_t_func (electric_field self) (R_t (trajectory self)) in
  let B_t := get_B_t_func (magnetic_field self) (R_t (trajectory self)) in
  let H_t := get_H_t_func (hamiltonian self) in
  frame <-
    match microwave_fields self with
    | Some fields =>
        let D_mu : RMat := fun _ _ => 0 in
        '(D_mu, muw_hams, omegas) <-
          for_each fields (run_frame_step self) (D_mu, [], []) ;;
        ret (Some (H_mu_tot_t muw_hams, D_mu))
    | None => ret None
    end ;;
  let t_array := linspace 0 T N_steps in
  '(self, (psis_t, energies, probabilities, V_ini, V_fin)) <-
    match frame with
    | None => _time_evolve self H_t t_array
    | Some (H_mu_tot_t, D_mu) =>
        _time_evolve_mu self H_t H_mu_tot_t D_mu t_array
    end ;;
  let result :=
    SimulationResult_init (trajectory self) (electric_field self)
      (magnetic_field self) (initial_states self) (hamiltonian self)
      (microwave_fields self) t_array psis_t energies probabilities
      V_ini V_fin in
  ret (self, result).

End Engine.

(** ** An instance: levels with a diagonal Hamiltonian

    Solvers that are exact on real diagonal matrices with increasing
    diagonal, and a system whose slow Hamiltonian is of that kind. *)

Definition zheevd_diagonal (M : Mat) : Rvec * Mat * Z :=
  (fun k => Re (M k k), eye, 0%Z).

Definition eigh_diagonal (M : Mat) : Rvec * Mat :=
  (fun k => Re (M k k), eye).

Definition argsort_identity (n : nat) (D : Rvec) : list nat := seq 0 n.

Definition vector_to_state_const (v : Cvec) (QN : list BasisState) : State :=
  {| state_vector := fun _ => v |}.

(** Level [k] has energy [k]. *)
Definition H_levels (t : R) : Mat := diag (fun k => RtoC (INR k)).

Definition two_levels : Simulator :=
  Simulator_init
    {| get_T := 1; R_t := fun t _ => t; Vini := fun _ => 1;
       Rini := fun _ => 0 |}
    {| get_E_t_func := fun r => r |}
    {| get_B_t_func := fun r => r |}
    [ {| state_vector := fun _ k => if Nat.eqb k 0 then Cone else Czero |} ]
    {| QN := [ {| J := 0 |}; {| J := 1 |} ]; get_H_t_func := H_levels |}
    None.


(** ** Further notions used to state properties of the engine *)

(** [M] equals its conjugate transpose on its extent. *)
Definition hermitian (n : nat) (M : Mat) : Prop := Meq n n (dagger M) M.

(** The frame shift taken back to the basis of the Hamiltonian,
    [V @ D_mu @ V.conj().T]. *)
Definition frame_shift_in_basis (n : nat) (V : Mat) (D_mu : RMat) : Mat :=
  matmul n (matmul n V (RtoM D_mu)) (dagger V).

(** ** microwaves.py: make_H_mu *)

(** [make_H_mu(J1, J2, QN, pol_vec)].  The matrix element of a coupled
    pair is asked of [calculate_microwave_ME], a name the module neither
    defines nor imports.  The last statement is
    [(H_mu + np.conj(H_mu.T)) - np.diag(np.diag(H_mu))]. *)
Definition make_H_mu (J1 J2 : Z) (QN : list BasisState) (pol_vec : list R)
  : Py Mat :=
  let N_states := List.length QN in
  let H_mu : Mat := fun _ _ => Czero in
  H_mu <-
    for_each (seq 0 N_states)
      (fun H_mu i =>
         let state1 := nth i QN {| J := 0 |} in
         for_each (seq i (N_states - i))
           (fun H_mu j =>
              let state2 := nth j QN {| J := 0 |} in
              if ((Z.eqb (J state1) J1 && Z.eqb (J state2) J2) ||
                  (Z.eqb (J state1) J2 && Z.eqb (J state2) J1))%bool
              then
                ME <- raise (NameError "calculate_microwave_ME") ;;
                ret (upd2 H_mu i j ME)
              else ret H_mu)
           H_mu)
      H_mu ;;
  ret (fun i j =>
         (H_mu i j + (H_mu j i)^* +
          - (if Nat.eqb i j then H_mu i i else Czero))%C).

(** * Properties *)

(** ** Complex arithmetic *)

Lemma complex_eq (a b : complex) : Re a = Re b -> Im a = Im b -> a = b.
Proof. destruct a, b; simpl; intros -> ->; reflexivity. Qed.

Ltac cring := intros; apply complex_eq; simpl; ring.

Lemma Cadd_comm a b : (a + b = b + a)%C.
Proof. cring. Qed.
Lemma Cadd_assoc a b c : (a + (b + c) = a + b + c)%C.
Proof. cring. Qed.
Lemma Cadd_0_l a : (Czero + a = a)%C.
Proof. cring. Qed.
Lemma Cadd_0_r a : (a + Czero = a)%C.
Proof. cring. Qed.
Lemma Cmul_comm a b : (a * b = b * a)%C.
Proof. cring. Qed.
Lemma Cmul_assoc a b c : (a * (b * c) = a * b * c)%C.
Proof. cring. Qed.
Lemma Cmul_0_l a : (Czero * a = Czero)%C.
Proof. cring. Qed.
Lemma Cmul_0_r a : (a * Czero = Czero)%C.
Proof. cring. Qed.
Lemma Cmul_1_l a : (Cone * a = a)%C.
Proof. cring. Qed.
Lemma Cmul_1_r a : (a * Cone = a)%C.
Proof. cring. Qed.
Lemma Cmul_add_distr_l a b c : (a * (b + c) = a * b + a * c)%C.
Proof. cring. Qed.
Lemma Cmul_add_distr_r a b c : ((a + b) * c = a * c + b * c)%C.
Proof. cring. Qed.
Lemma Cconj_add a b : ((a + b)^* = a^* + b^*)%C.
Proof. cring. Qed.
Lemma Cconj_mul a b : ((a * b)^* = a^* * b^*)%C.
Proof. cring. Qed.
Lemma Cconj_conj a : (a^*^* = a)%C.
Proof. cring. Qed.
Lemma Cconj_0 : (Czero^* = Czero)%C.
Proof. cring. Qed.

Lemma Cabs_sq (a : complex) : Cabs a ^ 2 = Re a * Re a + Im a * Im a.
Proof.
  unfold Cabs. simpl. rewrite Rmult_1_r. apply sqrt_sqrt. nra.
Qed.

Lemma Cmul_conj_r (a : complex) : (a * a^*)%C = RtoC (Cabs a ^ 2).
Proof. rewrite Cabs_sq. apply complex_eq; simpl; ring. Qed.

Lemma Cmul_conj_l (a : complex) : (a^* * a)%C = RtoC (Cabs a ^ 2).
Proof. rewrite Cmul_comm. apply Cmul_conj_r. Qed.

(** Every phase factor [exp(-i d dt)] of a real eigenvalue has modulus 1. *)
Lemma phases_unit (D : Rvec) (dt : R) (k : nat) :
  ((phases D dt k)^* * phases D dt k)%C = Cone.
Proof.
  unfold phases, Cexp. apply complex_eq; simpl.
  - replace (- 0 * D k - - (1) * 0) with 0 by ring.
    replace ((0 * dt - (- 0 * 0 + - (1) * D k) * 0)) with 0 by ring.
    rewrite exp_0.
    set (x := 0 * 0 + (- 0 * 0 + - (1) * D k) * dt).
    generalize (sin2_cos2 x). unfold Rsqr. intros. nra.
  - ring.
Qed.

(** ** Finite sums *)

Lemma Csum_ext n f g :
  (forall k, (k < n)%nat -> f k = g k) -> Csum n f = Csum n g.
Proof.
  induction n as [|n IH]; simpl; intros H; [reflexivity|].
  rewrite IH, H by (intros; try apply H; lia). reflexivity.
Qed.

Lemma Csum_0 n : Csum n (fun _ => Czero) = Czero.
Proof. induction n; simpl; [|rewrite IHn]; cring. Qed.

Lemma Csum_add n f g :
  Csum n (fun k => (f k + g k)%C) = (Csum n f + Csum n g)%C.
Proof. induction n; simpl; [|rewrite IHn]; cring. Qed.

Lemma Csum_mul_l n c f :
  Csum n (fun k => (c * f k)%C) = (c * Csum n f)%C.
Proof. induction n; simpl; [|rewrite IHn]; cring. Qed.

Lemma Csum_mul_r n c f :
  Csum n (fun k => (f k * c)%C) = (Csum n f * c)%C.
Proof. induction n; simpl; [|rewrite IHn]; cring. Qed.

Lemma Csum_conj n f : ((Csum n f)^* = Csum n (fun k => (f k)^*))%C.
Proof. induction n; simpl; [|rewrite <- IHn]; cring. Qed.

Lemma Csum_swap m n (f : nat -> nat -> complex) :
  Csum m (fun i => Csum n (fun j => f i j)) =
  Csum n (fun j => Csum m (fun i => f i j)).
Proof.
  induction m as [|m IH]; simpl.
  - symmetry. apply Csum_0.
  - rewrite IH, <- Csum_add. reflexivity.
Qed.

(** A sum with a Kronecker delta keeps one term. *)
Lemma Csum_delta n j f :
  (j < n)%nat ->
  Csum n (fun k => if Nat.eqb k j then f k else Czero) = f j.
Proof.
  induction n as [|n IH]; intros Hj; [lia|]. simpl.
  destruct (Nat.eqb_spec n j) as [->|Hne].
  - rewrite (Csum_ext j _ (fun _ => Czero)), Csum_0, Cadd_0_l; [reflexivity|].
    intros k Hk. destruct (Nat.eqb_spec k j); [lia|reflexivity].
  - rewrite IH by lia. apply Cadd_0_r.
Qed.

Lemma Clsum_app l1 l2 : Clsum (l1 ++ l2) = (Clsum l1 + Clsum l2)%C.
Proof. induction l1; simpl; [|rewrite IHl1]; cring. Qed.

Lemma Clsum_perm l1 l2 : Permutation l1 l2 -> Clsum l1 = Clsum l2.
Proof.
  induction 1; simpl; try congruence.
  - rewrite !Cadd_assoc, (Cadd_comm y x). reflexivity.
Qed.

Lemma Csum_Clsum n f : Csum n f = Clsum (map f (seq 0 n)).
Proof.
  induction n as [|n IH]; [reflexivity|].
  rewrite seq_S, map_app, Clsum_app. simpl. rewrite IH. cring.
Qed.

(** Reindexing a sum along an index array that lists [0 .. n-1] in some
    order. *)
Lemma Csum_reindex n (index : list nat) f :
  Permutation index (seq 0 n) ->
  Csum n (fun k => f (nth k index O)) = Csum n f.
Proof.
  intros Hp. rewrite !Csum_Clsum.
  assert (Hlen : List.length index = n).
  { rewrite (Permutation_length Hp). apply length_seq. }
  assert (Hmap : map (fun k => f (nth k index O)) (seq 0 n) = map f index).
  { rewrite <- (map_map (fun k => nth k index O) f). f_equal.
    subst n. clear. 
    apply nth_ext with (d := O) (d' := O).
    - rewrite length_map, length_seq. reflexivity.
    - intros k Hk. rewrite length_map, length_seq in Hk.
      rewrite (nth_indep _ O (nth O index O)) by (rewrite length_map, length_seq; lia).
      rewrite (map_nth (fun k => nth k index O)).
      rewrite seq_nth by lia. reflexivity. }
  rewrite Hmap. apply Clsum_perm. apply Permutation_map. exact Hp.
Qed.

(** ** Matrix algebra *)

Lemma matmul_assoc n A B C :
  matmul n (matmul n A B) C = matmul n A (matmul n B C).
Proof.
  extensionality i. extensionality j. unfold matmul.
  rewrite (Csum_ext n _ (fun k => Csum n (fun l => (A i l * B l k * C k j)%C))).
  - rewrite Csum_swap. apply Csum_ext. intros l _.
    rewrite <- Csum_mul_l. apply Csum_ext. intros k _. cring.
  - intros k _. rewrite <- Csum_mul_r. reflexivity.
Qed.

Lemma dagger_matmul n A B :
  dagger (matmul n A B) = matmul n (dagger B) (dagger A).
Proof.
  extensionality i. extensionality j. unfold dagger, matmul.
  rewrite Csum_conj. apply Csum_ext. intros k _.
  rewrite Cconj_mul. apply Cmul_comm.
Qed.

Lemma dagger_dagger A : dagger (dagger A) = A.
Proof.
  extensionality i. extensionality j. unfold dagger. apply Cconj_conj.
Qed.

Lemma dagger_diag p : dagger (diag p) = diag (fun k => ((p k)^*)%C).
Proof.
  extensionality i. extensionality j. unfold dagger, diag.
  rewrite (Nat.eqb_sym j i).
  destruct (Nat.eqb_spec i j) as [->|]; [reflexivity|apply Cconj_0].
Qed.

Lemma eye_sym i j : eye i j = eye j i.
Proof.
  unfold eye, diag. rewrite (Nat.eqb_sym j i). reflexivity.
Qed.

Lemma matmul_diag_r n A p i j :
  (j < n)%nat -> matmul n A (diag p) i j = (A i j * p j)%C.
Proof.
  intros Hj. unfold matmul, diag.
  rewrite (Csum_ext n _ (fun k => if Nat.eqb k j then (A i k * p k)%C else Czero)).
  - apply (Csum_delta n j (fun k => (A i k * p k)%C)). exact Hj.
  - intros k _. destruct (Nat.eqb k j); [reflexivity|apply Cmul_0_r].
Qed.

Lemma matmul_eye_r n A i j : (j < n)%nat -> matmul n A eye i j = A i j.
Proof.
  intros Hj. unfold eye. rewrite matmul_diag_r by exact Hj. apply Cmul_1_r.
Qed.

Lemma matmul_eye_l n A i j : (i < n)%nat -> matmul n eye A i j = A i j.
Proof.
  intros Hi. unfold matmul, eye, diag.
  rewrite (Csum_ext n _ (fun k => if Nat.eqb k i then A k j else Czero)).
  - apply (Csum_delta n i (fun k => A k j)). exact Hi.
  - intros k _. rewrite (Nat.eqb_sym i k).
    destruct (Nat.eqb k i); [apply Cmul_1_l|apply Cmul_0_l].
Qed.

(** Inside a product only the entries within the extent matter. *)
Lemma matmul_sandwich n A X Y B :
  Meq n n X Y -> matmul n A (matmul n X B) = matmul n A (matmul n Y B).
Proof.
  intros H. extensionality i. extensionality j. unfold matmul.
  apply Csum_ext. intros k Hk. f_equal.
  apply Csum_ext. intros l Hl. rewrite H by assumption. reflexivity.
Qed.

Lemma matmul_eye_mid n A B : matmul n A (matmul n eye B) = matmul n A B.
Proof.
  extensionality i. extensionality j. unfold matmul at 1.
  apply Csum_ext. intros k Hk. rewrite matmul_eye_l by exact Hk. reflexivity.
Qed.

Lemma unitary_matmul n A B :
  unitary n A -> unitary n B -> unitary n (matmul n A B).
Proof.
  intros [HA1 HA2] [HB1 HB2]. split.
  - rewrite dagger_matmul, matmul_assoc, <- (matmul_assoc n (dagger A)).
    rewrite (matmul_sandwich n _ _ eye) by exact HA1.
    rewrite matmul_eye_mid. exact HB1.
  - rewrite dagger_matmul, matmul_assoc, <- (matmul_assoc n B).
    rewrite (matmul_sandwich n _ _ eye) by exact HB2.
    rewrite matmul_eye_mid. exact HA2.
Qed.

Lemma diag_phases_unit n D dt :
  Meq n n (matmul n (dagger (diag (phases D dt))) (diag (phases D dt))) eye.
Proof.
  intros i j Hi Hj. rewrite dagger_diag, matmul_diag_r by exact Hj.
  unfold eye, diag. destruct (Nat.eqb_spec i j) as [->|].
  - apply phases_unit.
  - apply Cmul_0_l.
Qed.

(** The single-operator propagator is unitary when [V] is. *)
Lemma propagator_unitary n D V dt :
  unitary n V ->
  Meq n n (matmul n (dagger (propagator n D V dt)) (propagator n D V dt)) eye.
Proof.
  intros [HV1 HV2]. unfold propagator.
  rewrite dagger_matmul, dagger_dagger, dagger_matmul.
  rewrite !matmul_assoc.
  rewrite <- (matmul_assoc n (dagger V) V).
  rewrite (matmul_sandwich n _ (matmul n (dagger V) V) eye) by exact HV1.
  rewrite matmul_eye_mid.
  rewrite <- (matmul_assoc n (dagger (diag _))).
  rewrite (matmul_sandwich n V _ eye) by apply diag_phases_unit.
  rewrite matmul_eye_mid. exact HV2.
Qed.

(** Entry [(i, j)] of the propagator: a single sum over the eigenpairs. *)
Lemma propagator_entry n D V dt i j :
  propagator n D V dt i j =
  Csum n (fun k => (V i k * phases D dt k * (V j k)^*)%C).
Proof.
  unfold propagator. unfold matmul at 1. apply Csum_ext. intros k Hk.
  rewrite matmul_diag_r by exact Hk. reflexivity.
Qed.

(** Column scaling by the phases is the product with their diagonal
    matrix, so the rotating-frame propagator is the single-operator one
    of the combined basis [V @ V_rot]. *)
Lemma propagator_mu_eq n V D_rot V_rot dt :
  propagator_mu n V D_rot V_rot dt = propagator n D_rot (matmul n V V_rot) dt.
Proof.
  extensionality i. extensionality j. rewrite propagator_entry.
  unfold propagator_mu. unfold matmul at 1. apply Csum_ext. intros k Hk.
  reflexivity.
Qed.

Lemma propagator_mu_unitary n V D_rot V_rot dt :
  unitary n V -> unitary n V_rot ->
  Meq n n (matmul n (dagger (propagator_mu n V D_rot V_rot dt))
                  (propagator_mu n V D_rot V_rot dt)) eye.
Proof.
  intros HV HR. rewrite propagator_mu_eq.
  apply propagator_unitary. apply unitary_matmul; assumption.
Qed.

(** ** Norms *)

Lemma RtoC_add x y : RtoC (x + y) = (RtoC x + RtoC y)%C.
Proof. cring. Qed.

Lemma norm2_gram n (psis : Mat) k :
  RtoC (norm2 n (psis k)) = matmul n psis (dagger psis) k k.
Proof.
  unfold norm2, matmul, dagger.
  induction n as [|n IH]; [reflexivity|].
  cbn [Rsum Csum]. rewrite RtoC_add, IH, Cmul_conj_r. reflexivity.
Qed.

Lemma einsum_as_matmul n U psis :
  einsum_ij_kj_ki n U psis = matmul n psis (transpose U).
Proof.
  extensionality k. extensionality i. unfold einsum_ij_kj_ki, matmul, transpose.
  apply Csum_ext. intros j _. apply Cmul_comm.
Qed.

(** Applying [U] with [U^dagger U = 1] to the rows of an ensemble keeps the
    norm of every row. *)
Lemma matmul_transpose_norm2 n U psis k :
  Meq n n (matmul n (dagger U) U) eye ->
  norm2 n (matmul n psis (transpose U) k) = norm2 n (psis k).
Proof.
  intros HU.
  assert (H : RtoC (norm2 n (matmul n psis (transpose U) k)) =
              RtoC (norm2 n (psis k))).
  { rewrite !norm2_gram. rewrite dagger_matmul, matmul_assoc.
    rewrite <- (matmul_assoc n (transpose U)).
    rewrite (matmul_sandwich n psis _ eye).
    - rewrite matmul_eye_mid. reflexivity.
    - intros j l Hj Hl. rewrite eye_sym, <- (HU l j) by assumption.
      unfold matmul, dagger, transpose. apply Csum_ext. intros i _.
      apply Cmul_comm. }
  apply (f_equal Re) in H. exact H.
Qed.

Lemma einsum_norm2 n U psis k :
  Meq n n (matmul n (dagger U) U) eye ->
  norm2 n (einsum_ij_kj_ki n U psis k) = norm2 n (psis k).
Proof.
  intros HU. rewrite einsum_as_matmul. apply matmul_transpose_norm2, HU.
Qed.

(** The probabilities of one state against the columns of [V] add up to
    the squared norm of the state. *)
Lemma calculate_probabilities_sum n psis V k :
  Meq n n (matmul n V (dagger V)) eye ->
  Rsum n (calculate_probabilities n psis V k) = norm2 n (psis k).
Proof.
  intros HV. unfold calculate_probabilities.
  change (norm2 n (einsum_ij_kj_ki n (dagger V) psis k) = norm2 n (psis k)).
  apply einsum_norm2. rewrite dagger_dagger. exact HV.
Qed.

(** ** Computations and loops *)

Lemma bind_inr {A B} (c : Py A) (k : A -> Py B) a l :
  c = (inr a, l) -> bind c k = (fst (k a), l ++ snd (k a)).
Proof. intros ->. unfold bind. destruct (k a). reflexivity. Qed.

Lemma bind_ret {A B} (a : A) (k : A -> Py B) : bind (ret a) k = k a.
Proof. unfold bind, ret. destruct (k a). reflexivity. Qed.

Lemma for_each_spec {S X} (body : S -> X -> Py S) (I : nat -> S -> Prop)
  (ev : X -> list event) (xs : list X) :
  (forall i x s, nth_error xs i = Some x -> I i s ->
     exists s', body s x = (inr s', ev x) /\ I (Datatypes.S i) s') ->
  forall s, I O s ->
  exists s', for_each xs body s = (inr s', flat_map ev xs)
             /\ I (List.length xs) s'.
Proof.
  revert I. induction xs as [|x xs IH]; intros I Hstep s Hs.
  - exists s. split; [reflexivity|exact Hs].
  - destruct (Hstep O x s eq_refl Hs) as (s1 & E1 & H1).
    destruct (IH (fun i => I (Datatypes.S i))) with (s := s1) as (s2 & E2 & H2).
    + intros i y s' Hn Hi. apply (Hstep (Datatypes.S i) y s' Hn Hi).
    + exact H1.
    + exists s2. split; [|exact H2].
      simpl. rewrite (bind_inr _ _ _ _ E1), E2. reflexivity.
Qed.

Lemma nth_error_enumerate {X} (xs : list X) i p :
  nth_error (enumerate xs) i = Some p ->
  fst p = i /\ nth_error xs i = Some (snd p).
Proof.
  unfold enumerate. intros H.
  assert (Hlt : (i < List.length xs)%nat).
  { assert (Hl := proj1 (nth_error_Some (combine (seq 0 (List.length xs)) xs) i)).
    rewrite H in Hl. specialize (Hl ltac:(discriminate)).
    rewrite length_combine, length_seq in Hl. lia. }
  destruct p as [j x].
  pose proof (nth_error_nth _ _ (O, x) H) as Hn.
  rewrite combine_nth in Hn by (rewrite length_seq; reflexivity).
  rewrite seq_nth in Hn by exact Hlt. simpl in Hn.
  injection Hn as Hj Hx. simpl. split; [symmetry; exact Hj|].
  rewrite (nth_error_nth' xs x Hlt). f_equal. exact Hx.
Qed.

Lemma flat_map_combine_snd {X Y Z} (f : Y -> list Z) (l : list X) (xs : list Y) :
  List.length l = List.length xs ->
  flat_map (fun it => f (snd it)) (combine l xs) = flat_map f xs.
Proof.
  revert xs. induction l as [|a l IH]; intros [|x xs] Hl; simpl in *;
    try discriminate; [reflexivity|].
  rewrite IH by lia. reflexivity.
Qed.

Lemma flat_map_enumerate {X Z} (f : X -> list Z) (xs : list X) :
  flat_map (fun it => f (snd it)) (enumerate xs) = flat_map f xs.
Proof. apply flat_map_combine_snd. apply length_seq. Qed.

Lemma length_enumerate {X} (xs : list X) :
  List.length (enumerate xs) = List.length xs.
Proof.
  unfold enumerate. rewrite length_combine, length_seq. apply Nat.min_id.
Qed.

Lemma length_removelast_cons {X} (x : X) xs :
  List.length (removelast (x :: xs)) = List.length xs.
Proof.
  revert x. induction xs as [|y ys IH]; intros x; [reflexivity|].
  change (removelast (x :: y :: ys)) with (x :: removelast (y :: ys)).
  cbn [List.length]. f_equal. apply IH.
Qed.

Lemma nth_error_removelast {X} (l : list X) i x d :
  nth_error (removelast l) i = Some x ->
  (i + 1 < List.length l)%nat /\ x = nth i l d.
Proof.
  revert i. induction l as [|a l IH]; intros i H.
  - destruct i; discriminate.
  - destruct l as [|b l].
    + destruct i; discriminate.
    + change (removelast (a :: b :: l)) with (a :: removelast (b :: l)) in H.
      destruct i as [|i]; simpl in H.
      * inversion H; subst. simpl. split; [lia|reflexivity].
      * apply IH in H. destruct H as [Hl ->]. simpl in *. split; [lia|reflexivity].
Qed.

Section EngineFacts.
Variable zheevd : Mat -> Rvec * Mat * Z.
Variable eigh : Mat -> Rvec * Mat.
Variable argsort : nat -> Rvec -> list nat.
Variable vector_to_state : Cvec -> list BasisState -> State.

Lemma diagonalize_eq H :
  diagonalize zheevd eigh H = (inr (eig_slow zheevd eigh H), diag_events zheevd H).
Proof.
  unfold diagonalize, eig_slow, diag_events, zheevd_info, call_zheevd, call_eigh, bind.
  destruct (zheevd H) as [[D V] info]. simpl.
  destruct (negb (info =? 0)%Z); reflexivity.
Qed.

Lemma diagonalize_rot_eq H :
  diagonalize_rot zheevd eigh H = (inr (eig_rot zheevd eigh H), diag_rot_events zheevd H).
Proof.
  unfold diagonalize_rot, eig_rot, diag_rot_events, zheevd_info, call_zheevd, call_eigh, bind, emit.
  destruct (zheevd H) as [[D V] info]. simpl.
  destruct (negb (info =? 0)%Z); reflexivity.
Qed.

Lemma _time_evolve_step_eq H t_array V_ref_ini s i t :
  _time_evolve_step zheevd eigh H t_array V_ref_ini s (i, t) =
  (inr (_time_evolve_update t_array V_ref_ini s i (eig_slow zheevd eigh (H t))),
   diag_events zheevd (H t)).
Proof.
  unfold _time_evolve_step. rewrite (bind_inr _ _ _ _ (diagonalize_eq _)).
  simpl. rewrite app_nil_r. reflexivity.
Qed.

Lemma _time_evolve_mu_step_eq H H_mu D_mu t_array vars i t :
  let n := List.length (QN (hamiltonian (l_self vars))) in
  let DV := sort_eig argsort n (eig_slow zheevd eigh (H t)) in
  let H_rot := rotating_frame n (snd DV) (H t) (H_mu t) D_mu in
  _time_evolve_mu_step zheevd eigh argsort H (fun t => ret (H_mu t)) D_mu t_array vars (i, t) =
  (inr (_time_evolve_mu_update t_array vars i DV (eig_rot zheevd eigh H_rot)),
   diag_events zheevd (H t) ++ diag_rot_events zheevd H_rot).
Proof.
  intros n DV H_rot. unfold _time_evolve_mu_step. rewrite bind_ret.
  rewrite (bind_inr _ _ _ _ (diagonalize_eq _)).
  fold n. fold DV. fold H_rot.
  rewrite (bind_inr _ _ _ _ (diagonalize_rot_eq _)).
  simpl. rewrite app_nil_r. reflexivity.
Qed.

Lemma _time_evolve_eq self H t0 ts :
  _time_evolve zheevd eigh vector_to_state self H (t0 :: ts) =
  match for_each (enumerate (removelast (t0 :: ts)))
          (_time_evolve_step zheevd eigh H (t0 :: ts) (snd (eigh (H t0))))
          (loop_entry eigh vector_to_state self (H t0)) with
  | (inr (vars, ed), l) =>
      (inr (l_self vars,
            (l_psis_t vars, l_energies vars, l_probabilities vars,
             snd (eigh (H t0)), l_V_ref vars)),
       [Call_eigh (H t0); Call_eigh (H t0); Call_eigh (H t0)] ++ l)
  | (inl e, l) =>
      (inl e, [Call_eigh (H t0); Call_eigh (H t0); Call_eigh (H t0)] ++ l)
  end.
Proof.
  cbv beta iota delta [_time_evolve].
  set (xs := enumerate (removelast (t0 :: ts))).
  unfold init_state_vecs, _init_results_containers, loop_entry, call_eigh.
  destruct (eigh (H t0)) as [E_ref V_ref]. cbn [fst snd].
  unfold bind at 1. cbn [ret bind fst snd app].
  destruct (initial_containers _ _) as [[psis_t energies] probabilities].
  cbn [ret bind fst snd app].
  destruct (for_each xs _ _) as [[e|[vars ed]] l]; cbn [ret bind fst snd app];
    rewrite ?app_nil_r; reflexivity.
Qed.

Lemma hamiltonian_loop_entry self H0 :
  hamiltonian (l_self (fst (loop_entry eigh vector_to_state self H0))) =
  hamiltonian self.
Proof.
  unfold loop_entry. destruct (initial_containers _ _) as [[? ?] ?].
  reflexivity.
Qed.

Lemma hamiltonian_update t_array V_ref_ini s i DV :
  hamiltonian (l_self (fst (_time_evolve_update t_array V_ref_ini s i DV))) =
  hamiltonian (l_self (fst s)).
Proof.
  destruct s as [vars ed], DV as [D V]. unfold _time_evolve_update.
  destruct (reorder_evecs _ V D (l_V_ref vars)) as [Es evecs].
  destruct (reorder_evecs _ V D V_ref_ini) as [Es_d ?]. reflexivity.
Qed.

(** [_time_evolve] on a non-empty grid: it returns, its log is the three
    initial calls of [eigh] followed by the calls of each step, and any
    property that holds of the loop variables on entry and is kept by
    every iteration holds of them at the end. *)
Lemma _time_evolve_spec self H t0 ts
  (I : nat -> loop_vars * (nat -> Rvec) -> Prop) :
  let t_array := t0 :: ts in
  let V_ref_ini := snd (eigh (H t0)) in
  I O (loop_entry eigh vector_to_state self (H t0)) ->
  (forall i s, (i < List.length ts)%nat -> I i s ->
     hamiltonian (l_self (fst s)) = hamiltonian self ->
     I (S i) (_time_evolve_update t_array V_ref_ini s i
                (eig_slow zheevd eigh (H (nth i t_array 0))))) ->
  exists vars ed,
    _time_evolve zheevd eigh vector_to_state self H t_array =
      (inr (l_self vars,
            (l_psis_t vars, l_energies vars, l_probabilities vars,
             V_ref_ini, l_V_ref vars)),
       [Call_eigh (H t0); Call_eigh (H t0); Call_eigh (H t0)] ++
       flat_map (fun t => diag_events zheevd (H t)) (removelast t_array))
    /\ I (List.length ts) (vars, ed).
Proof.
  intros t_array V_ref_ini H0 Hstep.
  destruct (for_each_spec
              (_time_evolve_step zheevd eigh H t_array V_ref_ini)
              (fun i s => I i s /\
                          hamiltonian (l_self (fst s)) = hamiltonian self)
              (fun it => diag_events zheevd (H (snd it)))
              (enumerate (removelast t_array)))
    with (s := loop_entry eigh vector_to_state self (H t0))
    as ([vars ed] & E & HI & _).
  - intros i [j t] s Hn [Hi Hh].
    apply nth_error_enumerate in Hn. destruct Hn as [Hj Hn].
    cbn [fst snd] in Hj, Hn. subst j.
    apply (nth_error_removelast _ _ _ 0) in Hn. destruct Hn as [Hl ->].
    eexists. split; [apply _time_evolve_step_eq|]. split.
    + apply Hstep; [|exact Hi|exact Hh].
      unfold t_array in Hl. cbn [List.length] in Hl. lia.
    + rewrite hamiltonian_update. exact Hh.
  - split; [exact H0|apply hamiltonian_loop_entry].
  - exists vars, ed. split.
    + unfold t_array. rewrite _time_evolve_eq. fold t_array. fold V_ref_ini.
      rewrite E.
      rewrite (flat_map_enumerate (fun t => diag_events zheevd (H t))).
      reflexivity.
    + rewrite length_enumerate in HI. unfold t_array in HI.
      rewrite length_removelast_cons in HI. exact HI.
Qed.

Lemma hamiltonian_loop_entry_mu self H0 :
  hamiltonian (l_self (loop_entry_mu eigh argsort vector_to_state self H0)) =
  hamiltonian self.
Proof.
  unfold loop_entry_mu. destruct (initial_containers _ _) as [[? ?] ?].
  reflexivity.
Qed.

Lemma hamiltonian_mu_update t_array vars i DV DV_rot :
  hamiltonian (l_self (_time_evolve_mu_update t_array vars i DV DV_rot)) =
  hamiltonian (l_self vars).
Proof.
  destruct DV as [D V], DV_rot as [D_rot V_rot].
  unfold _time_evolve_mu_update.
  destruct (reorder_evecs _ V D (l_V_ref vars)) as [Es evecs]. reflexivity.
Qed.

Lemma _time_evolve_mu_eq self H H_mu_t D_mu t0 ts :
  _time_evolve_mu zheevd eigh argsort vector_to_state self H H_mu_t D_mu
    (t0 :: ts) =
  let n := List.length (QN (hamiltonian self)) in
  match for_each (enumerate (removelast (t0 :: ts)))
          (_time_evolve_mu_step zheevd eigh argsort H H_mu_t D_mu (t0 :: ts))
          (loop_entry_mu eigh argsort vector_to_state self (H t0)) with
  | (inr vars, l) =>
      (inr (l_self vars,
            (l_psis_t vars, l_energies vars, l_probabilities vars,
             snd (sort_eig argsort n (eigh (H t0))), l_V_ref vars)),
       [Call_eigh (H t0); Call_eigh (H t0); Call_eigh (H t0)] ++ l)
  | (inl e, l) =>
      (inl e, [Call_eigh (H t0); Call_eigh (H t0); Call_eigh (H t0)] ++ l)
  end.
Proof.
  cbv beta iota zeta delta [_time_evolve_mu].
  set (xs := enumerate (removelast (t0 :: ts))).
  unfold init_state_vecs, _init_results_containers, loop_entry_mu, call_eigh.
  destruct (eigh (H t0)) as [E_ref V_ref] eqn:Eh. cbn [fst snd].
  unfold bind at 1. cbn [ret bind fst snd app].
  destruct (initial_containers _ _) as [[psis_t energies] probabilities].
  cbn [ret bind fst snd app].
  destruct (sort_eig argsort _ (E_ref, V_ref)) as [E_s V_s] eqn:Es.
  cbn [ret bind fst snd app].
  destruct (for_each xs _ _) as [[e|vars] l]; cbn [ret bind fst snd app];
    rewrite ?app_nil_r; reflexivity.
Qed.

(** The same for [_time_evolve_mu] with a coupling function that
    returns. *)
Lemma _time_evolve_mu_spec self H H_mu D_mu t0 ts
  (I : nat -> loop_vars -> Prop) :
  let t_array := t0 :: ts in
  let n := List.length (QN (hamiltonian self)) in
  let DV t := sort_eig argsort n (eig_slow zheevd eigh (H t)) in
  let H_rot t := rotating_frame n (snd (DV t)) (H t) (H_mu t) D_mu in
  I O (loop_entry_mu eigh argsort vector_to_state self (H t0)) ->
  (forall i s, (i < List.length ts)%nat -> I i s ->
     hamiltonian (l_self s) = hamiltonian self ->
     I (S i) (_time_evolve_mu_update t_array s i (DV (nth i t_array 0))
                (eig_rot zheevd eigh (H_rot (nth i t_array 0))))) ->
  exists vars,
    _time_evolve_mu zheevd eigh argsort vector_to_state self H
      (fun t => ret (H_mu t)) D_mu t_array =
      (inr (l_self vars,
            (l_psis_t vars, l_energies vars, l_probabilities vars,
             snd (sort_eig argsort n (eigh (H t0))), l_V_ref vars)),
       [Call_eigh (H t0); Call_eigh (H t0); Call_eigh (H t0)] ++
       flat_map (fun t => diag_events zheevd (H t) ++
                          diag_rot_events zheevd (H_rot t))
                (removelast t_array))
    /\ I (List.length ts) vars.
Proof.
  intros t_array n DV H_rot H0 Hstep.
  destruct (for_each_spec
              (_time_evolve_mu_step zheevd eigh argsort H
                 (fun t => ret (H_mu t)) D_mu t_array)
              (fun i s => I i s /\ hamiltonian (l_self s) = hamiltonian self)
              (fun it => diag_events zheevd (H (snd it)) ++
                         diag_rot_events zheevd (H_rot (snd it)))
              (enumerate (removelast t_array)))
    with (s := loop_entry_mu eigh argsort vector_to_state self (H t0))
    as (vars & E & HI & _).
  - intros i [j t] s Hn [Hi Hh].
    apply nth_error_enumerate in Hn. destruct Hn as [Hj Hn].
    cbn [fst snd] in Hj, Hn. subst j.
    apply (nth_error_removelast _ _ _ 0) in Hn. destruct Hn as [Hl ->].
    eexists. split.
    + rewrite _time_evolve_mu_step_eq. rewrite Hh. reflexivity.
    + split.
      * apply Hstep; [|exact Hi|exact Hh].
        unfold t_array in Hl. cbn [List.length] in Hl. lia.
      * rewrite hamiltonian_mu_update. exact Hh.
  - split; [exact H0|apply hamiltonian_loop_entry_mu].
  - exists vars. split.
    + unfold t_array. rewrite _time_evolve_mu_eq. cbv zeta.
      fold t_array. fold n. rewrite E.
      rewrite (flat_map_enumerate
                 (fun t => diag_events zheevd (H t) ++
                           diag_rot_events zheevd (H_rot t))).
      reflexivity.
    + rewrite length_enumerate in HI. unfold t_array in HI.
      rewrite length_removelast_cons in HI. exact HI.
Qed.

(** C6.  Every diagonalization calls [zheevd] once; when the status it
    reports is not 0 the eigensystem is recomputed by exactly one call
    of [np.linalg.eigh], whose result is used, and nothing is raised.
    The log of a whole run of [_time_evolve] or [_time_evolve_mu] is
    made of the three initial calls of [eigh] and, for each step in
    order, of the calls of these diagonalizations and nothing else. *)
Theorem eigensolver_single_fallback :
  (forall H,
      diagonalize zheevd eigh H =
      (inr (if Z.eqb (zheevd_info zheevd H) 0 then fst (zheevd H)
            else eigh H),
       Call_zheevd H ::
       (if Z.eqb (zheevd_info zheevd H) 0 then [] else [Call_eigh H])))
  /\ (forall H_rot,
      diagonalize_rot zheevd eigh H_rot =
      (inr (if Z.eqb (zheevd_info zheevd H_rot) 0 then fst (zheevd H_rot)
            else eigh H_rot),
       Call_zheevd H_rot ::
       (if Z.eqb (zheevd_info zheevd H_rot) 0 then []
        else [Print "zheevd didn't work for H_rot"; Call_eigh H_rot])))
  /\ (forall self H t0 ts,
      exists result,
        _time_evolve zheevd eigh vector_to_state self H (t0 :: ts) =
        (inr result,
         [Call_eigh (H t0); Call_eigh (H t0); Call_eigh (H t0)] ++
         flat_map (fun t => snd (diagonalize zheevd eigh (H t)))
                  (removelast (t0 :: ts))))
  /\ (forall self H H_mu D_mu t0 ts,
      let n := List.length (QN (hamiltonian self)) in
      let V t := snd (sort_eig argsort n (eig_slow zheevd eigh (H t))) in
      exists result,
        _time_evolve_mu zheevd eigh argsort vector_to_state self H
          (fun t => ret (H_mu t)) D_mu (t0 :: ts) =
        (inr result,
         [Call_eigh (H t0); Call_eigh (H t0); Call_eigh (H t0)] ++
         flat_map
           (fun t =>
              snd (diagonalize zheevd eigh (H t)) ++
              snd (diagonalize_rot zheevd eigh
                     (rotating_frame n (V t) (H t) (H_mu t) D_mu)))
           (removelast (t0 :: ts)))).
Proof.
  split; [|split; [|split]].
  - intros H. unfold diagonalize, zheevd_info, call_zheevd, call_eigh, bind.
    destruct (zheevd H) as [[D V] info]. cbn [fst snd].
    destruct (Z.eqb info 0); reflexivity.
  - intros H. unfold diagonalize_rot, zheevd_info, call_zheevd, call_eigh,
      bind, emit.
    destruct (zheevd H) as [[D V] info]. cbn [fst snd].
    destruct (Z.eqb info 0); reflexivity.
  - intros self H t0 ts.
    destruct (_time_evolve_spec self H t0 ts (fun _ _ => True))
      as (vars & ed & E & _); [exact I|intros; exact I|].
    eexists. rewrite E. f_equal. f_equal.
    apply flat_map_ext. intros t. rewrite diagonalize_eq. reflexivity.
  - intros self H H_mu D_mu t0 ts n V.
    destruct (_time_evolve_mu_spec self H H_mu D_mu t0 ts (fun _ _ => True))
      as (vars & E & _); [exact I|intros; exact I|].
    eexists. rewrite E. f_equal. f_equal.
    apply flat_map_ext. intros t.
    rewrite diagonalize_eq, diagonalize_rot_eq. reflexivity.
Qed.

Lemma norm2_norm n u v : norm2 n u = norm2 n v -> norm n u = norm n v.
Proof. unfold norm. intros ->. reflexivity. Qed.

Lemma upd_same {T} (a : nat -> T) i v : upd a i v i = v.
Proof. unfold upd. rewrite Nat.eqb_refl. reflexivity. Qed.

Lemma upd_other {T} (a : nat -> T) i j v : j <> i -> upd a i v j = a j.
Proof.
  intros Hne. unfold upd. destruct (Nat.eqb_spec j i); [contradiction|].
  reflexivity.
Qed.

(** The state vectors after an iteration of [_time_evolve]. *)
Lemma _time_evolve_update_psis t_array V_ref_ini s i DV :
  let n := List.length (QN (hamiltonian (l_self (fst s)))) in
  let dt := nth (i + 1) t_array 0 - nth i t_array 0 in
  let s' := _time_evolve_update t_array V_ref_ini s i DV in
  psis (l_self (fst s')) =
    einsum_ij_kj_ki n (propagator n (fst DV) (snd DV) dt)
      (psis (l_self (fst s)))
  /\ l_psis_t (fst s') = upd (l_psis_t (fst s)) (i + 1) (psis (l_self (fst s'))).
Proof.
  destruct s as [vars ed], DV as [D V]. unfold _time_evolve_update.
  destruct (reorder_evecs _ V D (l_V_ref vars)) as [Es evecs].
  destruct (reorder_evecs _ V D V_ref_ini) as [Es_d ?].
  split; reflexivity.
Qed.

Lemma _time_evolve_mu_update_psis t_array vars i DV DV_rot :
  let n := List.length (QN (hamiltonian (l_self vars))) in
  let dt := nth (i + 1) t_array 0 - nth i t_array 0 in
  let s' := _time_evolve_mu_update t_array vars i DV DV_rot in
  psis (l_self s') =
    matmul n (psis (l_self vars))
      (transpose (propagator_mu n (snd DV) (fst DV_rot) (snd DV_rot) dt))
  /\ l_psis_t s' = upd (l_psis_t vars) (i + 1) (psis (l_self s')).
Proof.
  destruct DV as [D V], DV_rot as [D_rot V_rot].
  unfold _time_evolve_mu_update.
  destruct (reorder_evecs _ V D (l_V_ref vars)) as [Es evecs].
  split; reflexivity.
Qed.

Lemma loop_entry_psis self H0 :
  let s := loop_entry eigh vector_to_state self H0 in
  l_psis_t (fst s) O = psis (l_self (fst s)).
Proof.
  unfold loop_entry, initial_containers. destruct (eigh H0) as [D V].
  reflexivity.
Qed.

Lemma loop_entry_mu_psis self H0 :
  let s := loop_entry_mu eigh argsort vector_to_state self H0 in
  l_psis_t s O = psis (l_self s).
Proof.
  unfold loop_entry_mu, initial_containers. destruct (eigh H0) as [D V].
  reflexivity.
Qed.

(** C7.  When the eigenvector matrices a step works with are unitary,
    its propagator [U_dt] satisfies [U_dt^dagger U_dt = 1]; and when this
    holds at every step, every tracked state vector has at every recorded
    time step the norm it has at the first one, in [_time_evolve] and in
    [_time_evolve_mu]. *)
Theorem propagator_unitary_norm_conserved
  (self : Simulator) (H H_mu : R -> Mat) (D_mu : RMat) (t0 : R)
  (ts : list R) :
  let t_array := t0 :: ts in
  let n := List.length (QN (hamiltonian self)) in
  let dt i := nth (i + 1) t_array 0 - nth i t_array 0 in
  let DV i := eig_slow zheevd eigh (H (nth i t_array 0)) in
  let DVs i := sort_eig argsort n (DV i) in
  let DV_rot i :=
    eig_rot zheevd eigh
      (rotating_frame n (snd (DVs i)) (H (nth i t_array 0))
         (H_mu (nth i t_array 0)) D_mu) in
  let U i := propagator n (fst (DV i)) (snd (DV i)) (dt i) in
  let U_mu i :=
    propagator_mu n (snd (DVs i)) (fst (DV_rot i)) (snd (DV_rot i)) (dt i) in
  (forall i, (i < List.length ts)%nat -> unitary n (snd (DV i))) ->
  (forall i, (i < List.length ts)%nat ->
     unitary n (snd (DVs i)) /\ unitary n (snd (DV_rot i))) ->
  (forall i, (i < List.length ts)%nat ->
     Meq n n (matmul n (dagger (U i)) (U i)) eye /\
     Meq n n (matmul n (dagger (U_mu i)) (U_mu i)) eye)
  /\ (exists self' psis_t energies probabilities V_ini V_fin log,
       _time_evolve zheevd eigh vector_to_state self H t_array =
         (inr (self', (psis_t, energies, probabilities, V_ini, V_fin)), log)
       /\ forall i k, (i < List.length t_array)%nat ->
            norm n (psis_t i k) = norm n (psis_t O k))
  /\ (exists self' psis_t energies probabilities V_ini V_fin log,
       _time_evolve_mu zheevd eigh argsort vector_to_state self H
         (fun t => ret (H_mu t)) D_mu t_array =
         (inr (self', (psis_t, energies, probabilities, V_ini, V_fin)), log)
       /\ forall i k, (i < List.length t_array)%nat ->
            norm n (psis_t i k) = norm n (psis_t O k)).
Proof.
  intros t_array n dt DV DVs DV_rot U U_mu HV HVmu.
  split; [|split].
  - intros i Hi. split.
    + apply propagator_unitary, HV, Hi.
    + destruct (HVmu i Hi). apply propagator_mu_unitary; assumption.
  - destruct (_time_evolve_spec self H t0 ts
      (fun i s =>
         psis (l_self (fst s)) = l_psis_t (fst s) i /\
         forall j k, (j <= i)%nat ->
           norm2 n (l_psis_t (fst s) j k) = norm2 n (l_psis_t (fst s) O k)))
      as (vars & ed & E & Hpsis & Hnorm).
    + split; [symmetry; apply loop_entry_psis|].
      intros j k Hj. replace j with O by lia. reflexivity.
    + intros i s Hi [Hp Hn] Hh.
      destruct (_time_evolve_update_psis (t0 :: ts) (snd (eigh (H t0))) s i
                  (eig_slow zheevd eigh (H (nth i (t0 :: ts) 0))))
        as [Ep Et].
      rewrite Hh in Ep. fold n in Ep.
      split.
      * rewrite Et. replace (S i) with (i + 1)%nat by lia.
        rewrite upd_same. reflexivity.
      * intros j k Hj. rewrite Et.
        rewrite (upd_other _ _ O) by lia.
        destruct (Nat.eq_dec j (i + 1)) as [->|Hne].
        -- rewrite upd_same, Ep. rewrite einsum_norm2.
           ++ rewrite Hp. apply Hn. lia.
           ++ apply propagator_unitary. apply (HV i Hi).
        -- rewrite upd_other by exact Hne. apply Hn. lia.
    + eexists _, _, _, _, _, _, _. split; [exact E|].
      intros i k Hi. apply norm2_norm. apply Hnorm.
      unfold t_array in Hi. cbn [List.length] in Hi. lia.
  - subst t_array dt DV DVs DV_rot U U_mu n.
    destruct (_time_evolve_mu_spec self H H_mu D_mu t0 ts
      (fun i s =>
         psis (l_self s) = l_psis_t s i /\
         forall j k, (j <= i)%nat ->
           norm2 (List.length (QN (hamiltonian self))) (l_psis_t s j k) =
           norm2 (List.length (QN (hamiltonian self))) (l_psis_t s O k)))
      as (vars & E & Hpsis & Hnorm).
    + split; [symmetry; apply loop_entry_mu_psis|].
      intros j k Hj. replace j with O by lia. reflexivity.
    + intros i s Hi [Hp Hn] Hh.
      match goal with |- context [_time_evolve_mu_update ?t ?s ?i ?a ?b] =>
        destruct (_time_evolve_mu_update_psis t s i a b) as [Ep Et] end.
      rewrite Hh in Ep.
      split.
      * rewrite Et. replace (S i) with (i + 1)%nat by lia.
        rewrite upd_same. reflexivity.
      * intros j k Hj. rewrite Et.
        rewrite (upd_other _ _ O) by lia.
        destruct (Nat.eq_dec j (i + 1)) as [->|Hne].
        -- rewrite upd_same, Ep. rewrite matmul_transpose_norm2.
           ++ rewrite Hp. apply Hn. lia.
           ++ destruct (HVmu i Hi) as [H1 H2].
              apply propagator_mu_unitary; assumption.
        -- rewrite upd_other by exact Hne. apply Hn. lia.
    + eexists _, _, _, _, _, _, _. split; [exact E|].
      intros i k Hi. apply norm2_norm. apply Hnorm.
      cbn [List.length] in Hi. lia.
Qed.

Lemma length_linspace start stop num :
  List.length (linspace start stop num) = num.
Proof.
  unfold linspace. destruct (Nat.ltb_spec 1 num) as [Hn|Hn].
  - rewrite length_app. cbn [List.length].
    destruct num as [|m]; [lia|].
    rewrite seq_S, map_app. cbn [map]. rewrite removelast_last.
    rewrite length_map, length_seq. lia.
  - rewrite length_map, length_seq. reflexivity.
Qed.


Lemma run_no_microwaves self N_steps :
  microwave_fields self = None ->
  run zheevd eigh argsort vector_to_state self N_steps =
  (r <- _time_evolve zheevd eigh vector_to_state self
          (get_H_t_func (hamiltonian self))
          (linspace 0 (get_T (trajectory self)) N_steps) ;;
   ret (fst r,
        SimulationResult_init (trajectory (fst r)) (electric_field (fst r))
          (magnetic_field (fst r)) (initial_states (fst r))
          (hamiltonian (fst r)) (microwave_fields (fst r))
          (linspace 0 (get_T (trajectory self)) N_steps)
          (fst (fst (fst (fst (snd r))))) (snd (fst (fst (fst (snd r)))))
          (snd (fst (fst (snd r)))) (snd (fst (snd r))) (snd (snd r)))).
Proof.
  intros Hmw. unfold run. rewrite Hmw, bind_ret.
  f_equal. extensionality r.
  destruct r as [self' [[[[psis_t energies] probabilities] V_ini] V_fin]].
  reflexivity.
Qed.




(** *** The reordering is a permutation *)

Lemma argmax_from_In f best cands :
  In (argmax_from f best cands) (best :: cands).
Proof.
  revert best. induction cands as [|j rest IH]; intros best; simpl.
  - left. reflexivity.
  - destruct (Rlt_dec (f best) (f j)).
    + right. apply IH.
    + destruct (IH best) as [H|H]; [left; exact H|right; right; exact H].
Qed.

Lemma remove_perm (j : nat) (l : list nat) :
  NoDup l -> In j l -> Permutation (j :: remove Nat.eq_dec j l) l.
Proof.
  induction 1 as [|x l Hx Hnd IH]; intros Hin; [contradiction|].
  simpl. destruct (Nat.eq_dec j x) as [->|Hne].
  - rewrite notin_remove by exact Hx. reflexivity.
  - destruct Hin as [->|Hin]; [contradiction|].
    rewrite perm_swap. apply perm_skip. apply IH, Hin.
Qed.

Lemma greedy_assign_perm (O : RMat) ks unused :
  NoDup unused -> List.length ks = List.length unused ->
  Permutation (greedy_assign O ks unused) unused.
Proof.
  revert unused. induction ks as [|k ks IH]; intros unused Hnd Hlen.
  - destruct unused; [constructor|discriminate].
  - destruct unused as [|j0 rest]; [discriminate|].
    cbn [greedy_assign].
    set (j := argmax_from (O k) j0 rest).
    assert (Hj : In j (j0 :: rest)) by apply argmax_from_In.
    assert (Hp := remove_perm j (j0 :: rest) Hnd Hj).
    rewrite <- Hp at 2. apply perm_skip. apply IH.
    + apply (Permutation_NoDup (Permutation_sym Hp)) in Hnd.
      inversion Hnd; assumption.
    + apply Permutation_length in Hp. cbn [List.length] in Hp, Hlen. lia.
Qed.

Lemma reorder_index_perm n V_in V_ref :
  Permutation (reorder_index n V_in V_ref) (seq 0 n).
Proof.
  apply greedy_assign_perm; [apply seq_NoDup|reflexivity].
Qed.

Lemma perm_seq_nth_lt n index j :
  Permutation index (seq 0 n) -> (j < n)%nat -> (nth j index O < n)%nat.
Proof.
  intros Hp Hj.
  assert (Hl : List.length index = n)
    by (rewrite (Permutation_length Hp); apply length_seq).
  assert (Hin : In (nth j index O) index) by (apply nth_In; lia).
  apply (Permutation_in _ Hp) in Hin. apply in_seq in Hin. lia.
Qed.

Lemma perm_seq_nth_inj n index j l :
  Permutation index (seq 0 n) -> (j < n)%nat -> (l < n)%nat ->
  nth j index O = nth l index O -> j = l.
Proof.
  intros Hp Hj Hl.
  assert (Hlen : List.length index = n)
    by (rewrite (Permutation_length Hp); apply length_seq).
  assert (Hnd : NoDup index).
  { apply (Permutation_NoDup (Permutation_sym Hp)), seq_NoDup. }
  rewrite NoDup_nth in Hnd. apply Hnd; lia.
Qed.

(** Permuting the columns of a unitary matrix leaves it unitary. *)
Lemma take_columns_unitary n V index :
  Permutation index (seq 0 n) -> unitary n V ->
  unitary n (take_columns V index).
Proof.
  intros Hp [H1 H2]. split.
  - intros j l Hj Hl.
    change (matmul n (dagger V) V (nth j index O) (nth l index O) = eye j l).
    rewrite H1 by (apply (perm_seq_nth_lt n); assumption).
    unfold eye, diag.
    destruct (Nat.eqb_spec (nth j index O) (nth l index O)) as [E|E];
      destruct (Nat.eqb_spec j l) as [E'|E']; try reflexivity.
    + apply (perm_seq_nth_inj n) in E; [contradiction|assumption..].
    + subst l. contradiction.
  - intros i m Hi Hm. rewrite <- (H2 i m Hi Hm).
    unfold matmul, dagger, take_columns.
    apply (Csum_reindex n index (fun k => (V i k * (V m k)^*)%C)), Hp.
Qed.

Lemma unitary_reorder_evecs n V D V_ref :
  unitary n V -> unitary n (snd (reorder_evecs n V D V_ref)).
Proof.
  intros HV. apply take_columns_unitary; [apply reorder_index_perm|exact HV].
Qed.

(** Permuting eigenvalues and eigenvector columns alike does not change
    the propagator. *)
Lemma propagator_take n D V index dt :
  Permutation index (seq 0 n) ->
  propagator n (take_entries D index) (take_columns V index) dt =
  propagator n D V dt.
Proof.
  intros Hp. extensionality i. extensionality j.
  rewrite !propagator_entry.
  apply (Csum_reindex n index
           (fun k => (V i k * phases D dt k * (V j k)^*)%C)), Hp.
Qed.

Lemma _time_evolve_update_relabelled_eq t_array V_ref_ini s i DV :
  _time_evolve_update_relabelled t_array V_ref_ini s i DV =
  _time_evolve_update t_array V_ref_ini s i DV.
Proof.
  destruct s as [vars ed], DV as [D V].
  unfold _time_evolve_update_relabelled, _time_evolve_update.
  set (n := List.length (QN (hamiltonian (l_self vars)))).
  assert (E : propagator n (fst (reorder_evecs n V D (l_V_ref vars)))
                (snd (reorder_evecs n V D (l_V_ref vars)))
                (nth (i + 1) t_array 0 - nth i t_array 0) =
              propagator n D V (nth (i + 1) t_array 0 - nth i t_array 0)).
  { apply propagator_take, reorder_index_perm. }
  destruct (reorder_evecs n V D (l_V_ref vars)) as [Es evecs].
  destruct (reorder_evecs n V D V_ref_ini) as [Es_d ?].
  cbn [fst snd] in E. rewrite E. reflexivity.
Qed.


(** C10.  The propagator [V diag(exp(-i D dt)) V^dagger] is unchanged
    when the eigenvalues and the eigenvector columns are permuted alike;
    so the propagator [_time_evolve] builds from the eigensolver's output
    is the one of the eigenbasis [reorder_evecs] returns, and a loop
    whose iterations built their propagators from the reordered
    eigenbasis would evolve the loop variables of [_time_evolve] in the
    same way. *)
Theorem propagator_permutation_invariant
  (n : nat) (D : Rvec) (V : Mat) (dt : R) (index : list nat) :
  Permutation index (seq 0 n) ->
  propagator n (take_entries D index) (take_columns V index) dt =
  propagator n D V dt
  /\ (forall V_ref,
       propagator n (fst (reorder_evecs n V D V_ref))
         (snd (reorder_evecs n V D V_ref)) dt =
       propagator n D V dt)
  /\ (forall H t_array V_ref_ini its s,
       for_each its
         (_time_evolve_step_relabelled zheevd eigh H t_array V_ref_ini) s =
       for_each its (_time_evolve_step zheevd eigh H t_array V_ref_ini) s).
Proof.
  intros Hp. split; [|split].
  - apply propagator_take, Hp.
  - intros V_ref. apply propagator_take, reorder_index_perm.
  - intros H t_array V_ref_ini its s. f_equal.
    extensionality s'. extensionality it. destruct it as [i t].
    unfold _time_evolve_step_relabelled, _time_evolve_step.
    f_equal. extensionality DV. f_equal.
    apply _time_evolve_update_relabelled_eq.
Qed.

(** All the loop variables after an iteration of [_time_evolve]. *)
Lemma _time_evolve_update_fields t_array V_ref_ini s i DV :
  let n := List.length (QN (hamiltonian (l_self (fst s)))) in
  let dt := nth (i + 1) t_array 0 - nth i t_array 0 in
  let s' := _time_evolve_update t_array V_ref_ini s i DV in
  let r := reorder_evecs n (snd DV) (fst DV) (l_V_ref (fst s)) in
  l_V_ref (fst s') = snd r
  /\ l_energies (fst s') = upd (l_energies (fst s)) (i + 1) (fst r)
  /\ l_probabilities (fst s') =
       upd (l_probabilities (fst s)) (i + 1)
         (calculate_probabilities n (psis (l_self (fst s'))) (snd r))
  /\ snd s' =
       upd (snd s) (i + 1)
         (fst (reorder_evecs n (snd DV) (fst DV) V_ref_ini)).
Proof.
  destruct s as [vars ed], DV as [D V]. unfold _time_evolve_update.
  cbn [fst snd].
  destruct (reorder_evecs _ V D (l_V_ref vars)) as [Es evecs].
  destruct (reorder_evecs _ V D V_ref_ini) as [Es_d ?].
  repeat split; reflexivity.
Qed.


Lemma norm2_column n V idx :
  unitary n V -> (idx < n)%nat -> norm2 n (column V idx) = 1.
Proof.
  intros [H1 _] Hi.
  assert (H : RtoC (norm2 n (transpose V idx)) = Cone).
  { rewrite norm2_gram.
    replace Cone with (eye idx idx)
      by (unfold eye, diag; rewrite Nat.eqb_refl; reflexivity).
    rewrite <- (H1 idx idx Hi Hi).
    unfold matmul, dagger, transpose. apply Csum_ext. intros j _.
    apply Cmul_comm. }
  apply (f_equal Re) in H. exact H.
Qed.

Lemma find_max_overlap_idx_lt n state_vec V :
  (0 < n)%nat -> (find_max_overlap_idx n state_vec V < n)%nat.
Proof.
  intros Hn. unfold find_max_overlap_idx.
  destruct (argmax_from_In
              (fun j => Cabs (Csum n (fun i => ((state_vec i)^* * V i j)%C)))
              O (seq 1 (n - 1))) as [<-|Hin]; [exact Hn|].
  apply in_seq in Hin. lia.
Qed.

Lemma loop_entry_fields self H0 :
  let n := List.length (QN (hamiltonian self)) in
  let s := loop_entry eigh vector_to_state self H0 in
  let self' := resolve_initial_states vector_to_state self (snd (eigh H0)) in
  l_self (fst s) = self'
  /\ l_V_ref (fst s) = snd (eigh H0)
  /\ l_psis_t (fst s) = upd (fun _ _ _ => Czero) 0 (psis self')
  /\ l_energies (fst s) = upd (fun _ _ => 0) 0 (fst (eigh H0))
  /\ l_probabilities (fst s) =
       upd (fun _ _ _ => 0) 0
         (calculate_probabilities n (psis self') (snd (eigh H0)))
  /\ snd s = upd (fun _ _ => 0) 0 (fst (eigh H0)).
Proof.
  unfold loop_entry, initial_containers. destruct (eigh H0) as [D V].
  repeat split; reflexivity.
Qed.


(** The resolved initial states are columns of the eigenvector matrix. *)
Lemma resolve_initial_states_norm self V k :
  let n := List.length (QN (hamiltonian self)) in
  (0 < n)%nat -> unitary n V ->
  (k < List.length (initial_states_approx self))%nat ->
  norm2 n (psis (resolve_initial_states vector_to_state self V) k) = 1.
Proof.
  intros n Hn HV Hk. unfold resolve_initial_states. cbn [psis set_states].
  unfold np_array.
  rewrite (nth_indep _ _ (column V O)) by (rewrite length_map; exact Hk).
  destruct (initial_states_approx self) as [|st0 sts] eqn:Es;
    [cbn in Hk; lia|].
  rewrite <- Es in *.
  set (f := fun state : State => column V _).
  assert (E : column V O = column V 0) by reflexivity.
  pose proof (map_nth f (initial_states_approx self) st0 k) as Hm.
  rewrite (nth_indep _ _ (f st0)) by (rewrite length_map; exact Hk).
  rewrite Hm. unfold f. apply norm2_column; [exact HV|].
  apply find_max_overlap_idx_lt, Hn.
Qed.

Lemma norm2_nonneg n v : 0 <= norm2 n v.
Proof.
  unfold norm2. induction n as [|m IH]; cbn [Rsum]; [lra|].
  pose proof (pow2_ge_0 (Cabs (v m))). lra.
Qed.

(** C8.  The probabilities [calculate_probabilities] returns for a state
    vector of unit norm against the columns of a unitary matrix add up
    to 1.  So do all the rows [_time_evolve] stores when the eigenvector
    matrices the solvers return are unitary: the tracked vectors start
    as columns of such a matrix and keep their norm, and the matrices
    passed to [calculate_probabilities] are column permutations of
    such matrices. *)
Theorem probabilities_sum_to_one (n : nat) (psis V : Mat) (k : nat) :
  unitary n V ->
  norm n (psis k) = 1 ->
  Rsum n (calculate_probabilities n psis V k) = 1
  /\ (forall self H t0 ts,
       let t_array := t0 :: ts in
       let n := List.length (QN (hamiltonian self)) in
       (0 < n)%nat ->
       unitary n (snd (eigh (H t0))) ->
       (forall i, (i < List.length ts)%nat ->
          unitary n (snd (eig_slow zheevd eigh (H (nth i t_array 0))))) ->
       exists self' psis_t energies probabilities V_ini V_fin log,
         _time_evolve zheevd eigh vector_to_state self H t_array =
           (inr (self', (psis_t, energies, probabilities, V_ini, V_fin)),
            log)
         /\ forall i k,
              (i < List.length t_array)%nat ->
              (k < List.length (initial_states_approx self))%nat ->
              Rsum n (probabilities i k) = 1).
Proof.
  intros HV Hnorm. split.
  - destruct HV as [_ HV].
    rewrite calculate_probabilities_sum by exact HV.
    unfold norm in Hnorm.
    assert (H0 := norm2_nonneg n (psis k)).
    rewrite <- (sqrt_sqrt _ H0), Hnorm. ring.
  - clear. intros self H t0 ts t_array n Hn HV0 HVs.
    destruct (_time_evolve_spec self H t0 ts
      (fun i s =>
         psis (l_self (fst s)) = l_psis_t (fst s) i /\
         unitary n (l_V_ref (fst s)) /\
         forall j k, (j <= i)%nat ->
           (k < List.length (initial_states_approx self))%nat ->
           norm2 n (l_psis_t (fst s) j k) = 1 /\
           Rsum n (l_probabilities (fst s) j k) = 1))
      as (vars & ed & E & Hpsis & _ & Hrows).
    + destruct (loop_entry_fields self (H t0))
        as (Es & Ev & Ep & _ & Epr & _).
      rewrite Es, Ev, Ep, Epr. split; [reflexivity|]. split; [exact HV0|].
      intros j k Hj Hk. replace j with O by lia. rewrite !upd_same.
      assert (Hone := resolve_initial_states_norm self (snd (eigh (H t0)))
                        k Hn HV0 Hk).
      split; [exact Hone|].
      rewrite calculate_probabilities_sum by apply HV0. exact Hone.
    + intros i s Hi (Hp & Hu & Hr) Hh.
      destruct (_time_evolve_update_psis (t0 :: ts) (snd (eigh (H t0))) s i
                  (eig_slow zheevd eigh (H (nth i (t0 :: ts) 0))))
        as [Ep Et].
      destruct (_time_evolve_update_fields (t0 :: ts) (snd (eigh (H t0))) s i
                  (eig_slow zheevd eigh (H (nth i (t0 :: ts) 0))))
        as (Ev & _ & Epr & _).
      rewrite Hh in Ep, Ev, Epr. fold n in Ep, Ev, Epr.
      assert (Hu' : unitary n
                      (snd (reorder_evecs n
                         (snd (eig_slow zheevd eigh (H (nth i (t0 :: ts) 0))))
                         (fst (eig_slow zheevd eigh (H (nth i (t0 :: ts) 0))))
                         (l_V_ref (fst s))))).
      { apply unitary_reorder_evecs, HVs, Hi. }
      split; [|split].
      * rewrite Et. replace (S i) with (i + 1)%nat by lia.
        rewrite upd_same. reflexivity.
      * rewrite Ev. exact Hu'.
      * intros j k Hj Hk. rewrite Et, Epr.
        destruct (Nat.eq_dec j (i + 1)) as [->|Hne].
        -- rewrite !upd_same.
           assert (Hone : norm2 n
                     (psis (l_self (fst (_time_evolve_update (t0 :: ts)
                        (snd (eigh (H t0))) s i
                        (eig_slow zheevd eigh (H (nth i (t0 :: ts) 0)))))) k)
                     = 1).
           { rewrite Ep, einsum_norm2.
             - rewrite Hp. apply Hr; [lia|exact Hk].
             - apply propagator_unitary, HVs, Hi. }
           split; [exact Hone|].
           rewrite calculate_probabilities_sum by apply Hu'. exact Hone.
        -- rewrite !upd_other by exact Hne. apply Hr; [lia|exact Hk].
    + eexists _, _, _, _, _, _, _. split; [exact E|].
      intros i k Hi Hk. apply Hrows; [|exact Hk].
      unfold t_array in Hi. cbn [List.length] in Hi. lia.
Qed.

(** *** Zero coupling in the rotating frame *)










Lemma matmul_diag_l n p A i j :
  (i < n)%nat -> matmul n (diag p) A i j = (p i * A i j)%C.
Proof.
  intros Hi. unfold matmul, diag.
  rewrite (Csum_ext n _ (fun k => if Nat.eqb k i then (p i * A k j)%C else Czero)).
  - apply (Csum_delta n i (fun k => (p i * A k j)%C)). exact Hi.
  - intros k _. rewrite (Nat.eqb_sym i k).
    destruct (Nat.eqb k i); [reflexivity|apply Cmul_0_l].
Qed.









(** *** The rotating-frame setup of [run] *)

Lemma run_frame_step_raises self s microwave_field :
  run_frame_step self s microwave_field =
  (inl (AttributeError "MicrowaveField" "get_H_t_func"), []).
Proof. destruct s as [[D_mu muw_hams] omegas]. reflexivity. Qed.

Lemma run_microwaves_raises self field fields N_steps :
  microwave_fields self = Some (field :: fields) ->
  run zheevd eigh argsort vector_to_state self N_steps =
  (inl (AttributeError "MicrowaveField" "get_H_t_func"), []).
Proof.
  intros Hmw. unfold run. rewrite Hmw. cbn [for_each].
  rewrite run_frame_step_raises. reflexivity.
Qed.

(** C2.  With a non-empty list of microwave fields [run] raises while it
    sets up the rotating frame, before any eigensolver is called: the
    first statement of the loop body asks the field for [get_H_t_func],
    which [MicrowaveField] does not have.  The call of [generate_D] that
    follows in the body passes [omega], a keyword [generate_D] does not
    accept; and [generate_D] called with [QN] alone returns with [self.D]
    still [None]. *)
Theorem run_with_microwaves_raises
  (trajectory : Trajectory) (electric_field : ElectricField)
  (magnetic_field : MagneticField) (initial_states_approx : list State)
  (hamiltonian : Hamiltonian) (field : MicrowaveField)
  (fields : list MicrowaveField) (N_steps : nat) :
  let self :=
    Simulator_init trajectory electric_field magnetic_field
      initial_states_approx hamiltonian (Some (field :: fields)) in
  run zheevd eigh argsort vector_to_state self N_steps =
    (inl (AttributeError "MicrowaveField" "get_H_t_func"), [])
  /\ (forall (mf : MicrowaveField) QN omega,
       MicrowaveField_call mf "generate_D" [VQN QN]
         [("omega"%string, VReal omega)] =
       (inl (TypeError "got an unexpected keyword argument omega"), []))
  /\ (forall Jg Je spatial_dep muW_freq QN,
       let mf := MicrowaveField_init Jg Je spatial_dep muW_freq in
       exists mf',
         MicrowaveField_call mf "generate_D" [VQN QN] [] =
           (inr (mf', VNone), [])
         /\ D mf' = None).
Proof.
  intros self. split; [|split].
  - apply (run_microwaves_raises self field fields). reflexivity.
  - intros mf QN omega. reflexivity.
  - intros Jg Je sd f QN mf. exists mf. split; reflexivity.
Qed.

(** The array [generate_D] builds: [-omega] on the diagonal entries of
    the basis states with [J = Je], zero elsewhere. *)
Lemma generate_D_shift_entry (mf : MicrowaveField) (QN : list BasisState)
  (i j : nat) :
  generate_D_shift mf QN i j =
  if (Nat.eqb i j && Nat.ltb i (List.length QN) &&
      Z.eqb (J (nth i QN {| J := 0 |})) (Je mf))%bool
  then - (2 * PI * muW_freq mf) else 0.
Proof.
  unfold generate_D_shift.
  generalize (List.length QN). intros m.
  induction m as [|m IH].
  - simpl. rewrite andb_false_r. reflexivity.
  - rewrite seq_S, fold_left_app. cbn [fold_left Nat.add].
    destruct (Z.eqb_spec (J (nth m QN {| J := 0 |})) (Je mf)) as [E|E].
    + unfold upd2 in IH |- *. rewrite IH.
      destruct (Nat.eqb_spec i m) as [->|Him];
        destruct (Nat.eqb_spec j m) as [->|Hjm]; cbn [andb].
      * rewrite Nat.eqb_refl, E, Z.eqb_refl.
        replace (m <? S m)%nat with true
          by (symmetry; apply Nat.ltb_lt; lia).
        reflexivity.
      * destruct (Nat.eqb_spec m j); [congruence|].
        reflexivity.
      * destruct (Nat.eqb_spec i m); [congruence|]. reflexivity.
      * replace (i <? S m)%nat with (i <? m)%nat; [reflexivity|].
        destruct (Nat.ltb_spec i m), (Nat.ltb_spec i (S m));
          try reflexivity; lia.
    + rewrite IH.
      destruct (Nat.eqb_spec i m) as [->|Him].
      * replace (m <? m)%nat with false
          by (symmetry; apply Nat.ltb_ge; lia).
        rewrite andb_false_r. cbn [andb].
        destruct (Z.eqb_spec (J (nth m QN {| J := 0 |})) (Je mf));
          [contradiction|].
        rewrite andb_false_r. reflexivity.
      * replace (i <? S m)%nat with (i <? m)%nat; [reflexivity|].
        destruct (Nat.ltb_spec i m), (Nat.ltb_spec i (S m));
          try reflexivity; lia.
Qed.

(** C3, on the code as it is.  [generate_D] builds the shift of its own
    field, [-omega] with [omega = 2 pi muW_freq] on the diagonal entries
    of the states with [J = Je] and zero elsewhere, in a local array and
    returns without assigning it: the field it leaves behind is the field
    it was given.  [run] never sums a shift into [D_mu]: with a
    non-empty list of fields it raises before it reaches the call. *)
Theorem frame_shift_built_but_dropped
  (mf : MicrowaveField) (QN : list BasisState)
  (trajectory : Trajectory) (electric_field : ElectricField)
  (magnetic_field : MagneticField) (initial_states_approx : list State)
  (hamiltonian : Hamiltonian) (fields : list MicrowaveField)
  (N_steps : nat) :
  (forall i j,
     generate_D_shift mf QN i j =
     if (Nat.eqb i j && Nat.ltb i (List.length QN) &&
         Z.eqb (J (nth i QN {| J := 0 |})) (Je mf))%bool
     then - (2 * PI * muW_freq mf) else 0)
  /\ generate_D mf QN = (inr (mf, VNone), [])
  /\ run zheevd eigh argsort vector_to_state
       (Simulator_init trajectory electric_field magnetic_field
          initial_states_approx hamiltonian (Some (mf :: fields)))
       N_steps =
     (inl (AttributeError "MicrowaveField" "get_H_t_func"), []).
Proof.
  split; [|split].
  - apply generate_D_shift_entry.
  - reflexivity.
  - apply (run_microwaves_raises _ mf fields). reflexivity.
Qed.

Lemma np_any_true n b :
  np_any n b = true <-> exists i j, (i < n)%nat /\ (j < n)%nat /\ b i j = true.
Proof.
  unfold np_any. rewrite existsb_exists. split.
  - intros (i & Hi & Hex). apply existsb_exists in Hex.
    destruct Hex as (j & Hj & Hb). apply in_seq in Hi. apply in_seq in Hj.
    exists i, j. repeat split; [lia|lia|exact Hb].
  - intros (i & j & Hi & Hj & Hb). exists i. split; [apply in_seq; lia|].
    apply existsb_exists. exists j. split; [apply in_seq; lia|exact Hb].
Qed.

Lemma nonzero_true x : nonzero x = true <-> x <> 0.
Proof.
  unfold nonzero.
  destruct (Req_dec_T x 0); split; intros; congruence || reflexivity.
Qed.

(** C4, on the code as it is.  The check of line 286 is true exactly
    when the shift already summed and the shift of the field are both
    non-zero at some entry; but [run] does not get to it: with a
    non-empty list of fields, overlapping or not, the exception it
    raises is the [AttributeError] of the first statement of the loop
    body, never the consistency error. *)
Theorem frame_conflict_check_never_reached
  (trajectory : Trajectory) (electric_field : ElectricField)
  (magnetic_field : MagneticField) (initial_states_approx : list State)
  (hamiltonian : Hamiltonian) (field : MicrowaveField)
  (fields : list MicrowaveField) (N_steps : nat) :
  (forall n D_mu Dm,
     frame_conflict n D_mu (Some Dm) = true <->
     exists i j, (i < n)%nat /\ (j < n)%nat /\
                 D_mu i j <> 0 /\ Dm i j <> 0)
  /\ run zheevd eigh argsort vector_to_state
       (Simulator_init trajectory electric_field magnetic_field
          initial_states_approx hamiltonian (Some (field :: fields)))
       N_steps =
     (inl (AttributeError "MicrowaveField" "get_H_t_func"), []).
Proof.
  split.
  - intros n D_mu Dm. unfold frame_conflict. rewrite np_any_true.
    split.
    + intros (i & j & Hi & Hj & Hb). exists i, j.
      apply andb_true_iff in Hb. destruct Hb as [H1 H2].
      apply nonzero_true in H1. apply nonzero_true in H2. auto.
    + intros (i & j & Hi & Hj & H1 & H2). exists i, j.
      split; [exact Hi|]. split; [exact Hj|]. apply andb_true_iff.
      split; apply nonzero_true; assumption.
  - apply (run_microwaves_raises _ field fields). reflexivity.
Qed.

(** *** The result object *)

(** C1, on the code as it is.  [_time_evolve] fills [energies_diabatic]
    at every step but returns without it, and [SimulationResult] has no
    attribute of that name: on the result of every run without microwave
    fields [get_state_energy_diabatic] raises [AttributeError], while
    [get_state_energy] returns the column of [energies] the same index
    selects. *)
Theorem diabatic_energies_not_in_result
  (traj : Trajectory) (efield : ElectricField) (bfield : MagneticField)
  (approx : list State) (ham : Hamiltonian) (N : nat) (state : State) :
  let self := Simulator_init traj efield bfield approx ham None in
  exists self' result log energies V_ini,
    run zheevd eigh argsort vector_to_state self (S N) =
      (inr (self', result), log)
    /\ lookup "energies" result = Some (VArr2R energies)
    /\ lookup "V_ini" result = Some (VMat V_ini)
    /\ lookup "energies_diabatic" result = None
    /\ get_state_energy_diabatic result state =
         (inl (AttributeError "SimulationResult" "energies_diabatic"), [])
    /\ get_state_energy result state =
         (inr (fun t =>
                 energies t
                   (find_max_overlap_idx (List.length (QN ham))
                      (state_vector state (QN ham)) V_ini)),
          []).
Proof.
  intros self.
  assert (Hlen := length_linspace 0 (get_T traj) (S N)).
  destruct (linspace 0 (get_T traj) (S N)) as [|t0 ts] eqn:Et;
    [cbn in Hlen; lia|].
  destruct (_time_evolve_spec self (get_H_t_func ham) t0 ts
              (fun _ s => ham = hamiltonian (l_self (fst s))))
    as (vars & ed & E & Hh).
  - rewrite hamiltonian_loop_entry. reflexivity.
  - intros i s _ _ Hs. rewrite hamiltonian_update, Hs. reflexivity.
  - cbn [fst] in Hh.
    eexists _, _, _, (l_energies vars), _.
    split; [|split; [|split; [|split; [|split]]]].
    + rewrite run_no_microwaves by reflexivity.
      change (get_T (trajectory self)) with (get_T traj).
      change (get_H_t_func (hamiltonian self)) with (get_H_t_func ham).
      rewrite Et, (bind_inr _ _ _ _ E). cbn [fst snd ret]. reflexivity.
    + reflexivity.
    + reflexivity.
    + reflexivity.
    + reflexivity.
    + unfold get_state_energy, result_index_state.
      cbn. rewrite <- Hh. reflexivity.
Qed.

End EngineFacts.

(** ** The instance *)

Lemma unitary_eye n : unitary n eye.
Proof.
  assert (H : forall i j, dagger eye i j = eye i j).
  { intros i j. unfold dagger, eye, diag. rewrite (Nat.eqb_sym j i).
    destruct (Nat.eqb i j); cring. }
  split; intros i j Hi Hj.
  - rewrite matmul_eye_r by exact Hj. apply H.
  - rewrite matmul_eye_l by exact Hi. apply H.
Qed.

Lemma diagonal_eigensystem n M :
  Meq n n M (diag (fun k => RtoC (Re (M k k)))) ->
  eigensystem n M (fun k => Re (M k k), eye).
Proof.
  intros HM. split; [apply unitary_eye|]. cbn [fst snd].
  intros i j Hi Hj.
  rewrite matmul_eye_r by exact Hj. rewrite matmul_eye_l by exact Hi.
  apply HM; assumption.
Qed.


Lemma H_levels_eigensystem n t :
  eigensystem n (H_levels t) (fun k => Re (H_levels t k k), eye).
Proof.
  apply diagonal_eigensystem. intros i j _ _. unfold H_levels, diag.
  rewrite Nat.eqb_refl. destruct (Nat.eqb i j); reflexivity.
Qed.




Lemma unit_vector_norm : norm 2 (fun k => if Nat.eqb k 0 then Cone else Czero) = 1.
Proof.
  unfold norm, norm2. cbn [Rsum Nat.eqb]. rewrite !Cabs_sq. cbn [Re Im Cone Czero].
  replace (0 + (1 * 1 + 0 * 0) + (0 * 0 + 0 * 0)) with 1 by ring.
  apply sqrt_1.
Qed.


Lemma propagator_unitary_norm_conserved_witness :
  exists self' psis_t energies probabilities V_ini V_fin log,
    _time_evolve zheevd_diagonal eigh_diagonal vector_to_state_const
      two_levels H_levels [0; 1] =
      (inr (self', (psis_t, energies, probabilities, V_ini, V_fin)), log)
    /\ forall i k, (i < 2)%nat -> norm 2 (psis_t i k) = norm 2 (psis_t O k).
Proof.
  apply (propagator_unitary_norm_conserved zheevd_diagonal eigh_diagonal
           argsort_identity vector_to_state_const two_levels H_levels
           (fun _ _ _ => Czero) (fun _ _ => 0) 0 [1]).
  - intros i Hi. apply (unitary_eye 2).
  - intros i Hi. split.
    + apply (take_columns_unitary 2 eye (seq 0 2));
        [reflexivity|apply unitary_eye].
    + apply (unitary_eye 2).
Defined.

Lemma probabilities_sum_to_one_witness :
  unitary 2 eye /\
  Rsum 2 (calculate_probabilities 2
            (fun _ k => if Nat.eqb k 0 then Cone else Czero) eye O) = 1.
Proof.
  split; [apply unitary_eye|].
  apply (probabilities_sum_to_one zheevd_diagonal eigh_diagonal
           vector_to_state_const 2
           (fun _ k => if Nat.eqb k 0 then Cone else Czero) eye O).
  - apply unitary_eye.
  - apply unit_vector_norm.
Defined.


Lemma propagator_permutation_invariant_witness :
  Permutation [1; 0]%nat (seq 0 2) /\
  propagator 2 (take_entries (fun k => INR k) [1; 0]%nat)
    (take_columns eye [1; 0]%nat) 1 =
  propagator 2 (fun k => INR k) eye 1.
Proof.
  split; [apply perm_swap|].
  apply (propagator_permutation_invariant zheevd_diagonal eigh_diagonal
           2 (fun k => INR k) eye 1 [1; 0]%nat).
  apply perm_swap.
Defined.

(** * Further properties of the engine *)

(** ** The propagator as a one-parameter group *)

Lemma phases_value (D : Rvec) (dt : R) (k : nat) :
  phases D dt k = mkC (cos (D k * dt)) (- sin (D k * dt)).
Proof.
  unfold phases, Cexp. apply complex_eq; simpl.
  - replace (- 0 * D k - - (1) * 0) with 0 by ring.
    replace (0 * dt - (- 0 * 0 + - (1) * D k) * 0) with 0 by ring.
    replace (0 * 0 + (- 0 * 0 + - (1) * D k) * dt) with (- (D k * dt)) by ring.
    rewrite exp_0, cos_neg. ring.
  - replace (- 0 * D k - - (1) * 0) with 0 by ring.
    replace (0 * dt - (- 0 * 0 + - (1) * D k) * 0) with 0 by ring.
    replace (0 * 0 + (- 0 * 0 + - (1) * D k) * dt) with (- (D k * dt)) by ring.
    rewrite exp_0, sin_neg. ring.
Qed.

Lemma phases_add D a b k :
  phases D (a + b) k = (phases D a k * phases D b k)%C.
Proof.
  rewrite !phases_value. apply complex_eq; simpl.
  - replace (D k * (a + b)) with (D k * a + D k * b) by ring.
    rewrite cos_plus. ring.
  - replace (D k * (a + b)) with (D k * a + D k * b) by ring.
    rewrite sin_plus. ring.
Qed.

Lemma phases_zero D k : phases D 0 k = Cone.
Proof.
  rewrite phases_value. rewrite Rmult_0_r, cos_0, sin_0.
  apply complex_eq; simpl; ring.
Qed.

Lemma phases_opp D dt k : phases D (- dt) k = ((phases D dt k)^*)%C.
Proof.
  rewrite !phases_value.
  replace (D k * - dt) with (- (D k * dt)) by ring.
  rewrite cos_neg, sin_neg. apply complex_eq; simpl; ring.
Qed.

Lemma propagator_compose n D V a b :
  Meq n n (matmul n (dagger V) V) eye ->
  matmul n (propagator n D V a) (propagator n D V b) =
  propagator n D V (a + b).
Proof.
  intros HV. unfold propagator.
  rewrite !matmul_assoc.
  rewrite <- (matmul_assoc n (dagger V) V).
  rewrite (matmul_sandwich n _ (matmul n (dagger V) V) eye) by exact HV.
  rewrite matmul_eye_mid.
  extensionality i. extensionality j. unfold matmul at 1 4.
  apply Csum_ext. intros k Hk. f_equal.
  rewrite !matmul_diag_l by exact Hk.
  rewrite phases_add. cring.
Qed.

Lemma propagator_at_zero n D V :
  unitary n V -> Meq n n (propagator n D V 0) eye.
Proof.
  intros [_ HV2] i j Hi Hj. rewrite <- (HV2 i j Hi Hj).
  unfold propagator. unfold matmul at 1 3. apply Csum_ext. intros k Hk.
  rewrite matmul_diag_r by exact Hk. rewrite phases_zero, Cmul_1_r.
  reflexivity.
Qed.

(** X1.  For an eigensystem with unitary [V] the propagators of line 387
    form a one-parameter group: stepping by [a] after stepping by [b] is
    stepping by [a + b], a step of length 0 is the identity, and the
    propagator of [-dt] is the conjugate transpose of the one of [dt]. *)
Theorem propagator_group_law (n : nat) (D : Rvec) (V : Mat) (a b : R) :
  unitary n V ->
  matmul n (propagator n D V a) (propagator n D V b) = propagator n D V (a + b)
  /\ Meq n n (propagator n D V 0) eye
  /\ propagator n D V (- a) = dagger (propagator n D V a).
Proof.
  intros HV. split; [|split].
  - apply propagator_compose, HV.
  - apply propagator_at_zero, HV.
  - unfold propagator.
    rewrite dagger_matmul, dagger_dagger, dagger_matmul, dagger_diag.
    rewrite matmul_assoc. do 2 f_equal. f_equal.
    extensionality k. apply phases_opp.
Qed.

Lemma propagator_group_law_witness :
  unitary 2 eye /\
  matmul 2 (propagator 2 (fun k => INR k) eye 1)
    (propagator 2 (fun k => INR k) eye 2) =
  propagator 2 (fun k => INR k) eye (1 + 2).
Proof.
  split; [apply unitary_eye|].
  apply (propagator_group_law 2 (fun k => INR k) eye 1 2), unitary_eye.
Defined.

(** X2.  The rotating-frame propagator of lines 466 to 476, built by
    scaling the columns of [A = V @ V_rot] with the phase factors, is
    [A @ np.diag(phase) @ A.conj().T], as the comments of the source say:
    no explicit diagonal matrix is needed. *)
Theorem propagator_mu_is_diagonal_form
  (n : nat) (V : Mat) (D_rot : Rvec) (V_rot : Mat) (dt : R) :
  propagator_mu n V D_rot V_rot dt =
  matmul n (matmul n (matmul n V V_rot) (diag (phases D_rot dt)))
    (dagger (matmul n V V_rot)).
Proof.
  extensionality i. extensionality j.
  unfold propagator_mu. unfold matmul at 1 3. apply Csum_ext. intros k Hk.
  rewrite matmul_diag_r by exact Hk. reflexivity.
Qed.

(** ** Probabilities *)

Lemma Rsum_term_le n (f : nat -> R) i :
  (forall k, (k < n)%nat -> 0 <= f k) -> (i < n)%nat -> f i <= Rsum n f.
Proof.
  induction n as [|n IH]; intros Hf Hi; [lia|]. cbn [Rsum].
  assert (H0 : 0 <= Rsum n f).
  { clear IH Hi. induction n as [|m IHm]; cbn [Rsum]; [lra|].
    pose proof (Hf m ltac:(lia)). specialize (IHm ltac:(intros; apply Hf; lia)).
    lra. }
  destruct (Nat.eq_dec i n) as [->|Hne].
  - lra.
  - pose proof (Hf n ltac:(lia)).
    specialize (IH ltac:(intros; apply Hf; lia) ltac:(lia)). lra.
Qed.

Lemma Cabs_sq_mul a b : Cabs (a * b)%C ^ 2 = Cabs a ^ 2 * Cabs b ^ 2.
Proof. rewrite !Cabs_sq. simpl. ring. Qed.

Lemma Cabs_sq_conj a : Cabs (a^*)%C ^ 2 = Cabs a ^ 2.
Proof. rewrite !Cabs_sq. simpl. ring. Qed.

(** X3.  Every entry [calculate_probabilities] returns for a state vector
    of unit norm against a unitary matrix lies between 0 and 1. *)
Theorem probabilities_between_0_and_1 (n : nat) (psis V : Mat) (k i : nat) :
  unitary n V ->
  norm n (psis k) = 1 ->
  (i < n)%nat ->
  0 <= calculate_probabilities n psis V k i <= 1.
Proof.
  intros HV Hnorm Hi.
  assert (Hpos : forall j, (j < n)%nat ->
                   0 <= calculate_probabilities n psis V k j).
  { intros j _. unfold calculate_probabilities. apply pow2_ge_0. }
  split; [apply Hpos, Hi|].
  assert (Hsum : Rsum n (calculate_probabilities n psis V k) = 1).
  { destruct HV as [_ HV].
    rewrite calculate_probabilities_sum by exact HV.
    unfold norm in Hnorm. pose proof (norm2_nonneg n (psis k)) as H0.
    rewrite <- (sqrt_sqrt _ H0), Hnorm. ring. }
  rewrite <- Hsum. apply Rsum_term_le; assumption.
Qed.

Lemma probabilities_between_0_and_1_witness :
  0 <= calculate_probabilities 2
         (fun _ k => if Nat.eqb k 0 then Cone else Czero) eye O 1%nat <= 1.
Proof.
  apply (probabilities_between_0_and_1 2
           (fun _ k => if Nat.eqb k 0 then Cone else Czero) eye O 1%nat).
  - apply unitary_eye.
  - apply unit_vector_norm.
  - lia.
Defined.

(** X4.  The probabilities do not depend on the phases of the
    eigenvectors or of the state vectors: multiplying each column of [V]
    and each state vector by a number of modulus 1 leaves every entry of
    [calculate_probabilities] as it is.  (Eigensolvers fix eigenvectors
    up to such phases only.) *)
Theorem probabilities_phase_invariant
  (n : nat) (psis V : Mat) (phase c : Cvec) (k i : nat) :
  Cabs (phase i) = 1 ->
  Cabs (c k) = 1 ->
  calculate_probabilities n (fun k j => (c k * psis k j)%C)
    (scale_columns V phase) k i =
  calculate_probabilities n psis V k i.
Proof.
  intros Hp Hc. unfold calculate_probabilities, einsum_ij_kj_ki.
  assert (E : Csum n (fun j => (dagger (scale_columns V phase) i j *
                                (c k * psis k j))%C) =
              ((phase i)^* * c k *
               Csum n (fun j => (dagger V i j * psis k j)%C))%C).
  { rewrite <- Csum_mul_l. apply Csum_ext. intros j _.
    unfold dagger, scale_columns. rewrite Cconj_mul. cring. }
  rewrite E, !Cabs_sq_mul, Cabs_sq_conj, Hp, Hc. ring.
Qed.

Lemma probabilities_phase_invariant_witness :
  calculate_probabilities 2 (fun k j => (Cimag * eye k j)%C)
    (scale_columns eye (fun _ => Cimag)) O O =
  calculate_probabilities 2 eye eye O O.
Proof.
  assert (H : Cabs Cimag = 1).
  { unfold Cabs, Cimag. cbn [Re Im].
    replace (0 * 0 + 1 * 1) with 1 by ring. apply sqrt_1. }
  apply (probabilities_phase_invariant 2 eye eye (fun _ => Cimag)
           (fun _ => Cimag) O O); exact H.
Defined.

(** ** The Hamiltonian in the rotating frame *)

Lemma matmul_add_distr_l n A B C :
  matmul n A (Madd B C) = Madd (matmul n A B) (matmul n A C).
Proof.
  extensionality i. extensionality j. unfold matmul, Madd.
  rewrite <- Csum_add. apply Csum_ext. intros k _. cring.
Qed.

Lemma matmul_add_distr_r n A B C :
  matmul n (Madd A B) C = Madd (matmul n A C) (matmul n B C).
Proof.
  extensionality i. extensionality j. unfold matmul, Madd.
  rewrite <- Csum_add. apply Csum_ext. intros k _. cring.
Qed.

Lemma slow_part_diagonal n H D V :
  eigensystem n H (D, V) ->
  Meq n n (matmul n (matmul n (dagger V) H) V) (diag (fun k => RtoC (D k))).
Proof.
  intros [[HV1 _] HE] i j Hi Hj. cbn [fst snd] in *.
  rewrite matmul_assoc.
  transitivity (matmul n (dagger V)
                  (matmul n V (diag (fun k => RtoC (D k)))) i j).
  - unfold matmul at 1 3. apply Csum_ext. intros k Hk.
    rewrite (HE k j Hk Hj). reflexivity.
  - rewrite <- matmul_assoc.
    transitivity (matmul n eye (diag (fun k => RtoC (D k))) i j).
    + unfold matmul at 1 3. apply Csum_ext. intros k Hk.
      rewrite (HV1 i k Hi Hk). reflexivity.
    + apply matmul_eye_l, Hi.
Qed.

(** X5.  The matrix [_time_evolve_mu] hands to the Hermitian eigensolver
    is Hermitian: [H_rot] of line 452 equals its conjugate transpose
    whenever [H_slow + H_mu] does and the shift matrix [D_mu] is
    symmetric, whatever the matrix [V]. *)
Theorem rotating_frame_hermitian
  (n : nat) (V H_slow_i H_mu_i : Mat) (D_mu : RMat) :
  hermitian n (Madd H_slow_i H_mu_i) ->
  (forall i j, (i < n)%nat -> (j < n)%nat -> D_mu i j = D_mu j i) ->
  hermitian n (rotating_frame n V H_slow_i H_mu_i D_mu).
Proof.
  intros HH HD i j Hi Hj. unfold rotating_frame.
  set (M := Madd H_slow_i H_mu_i) in *.
  assert (E : dagger (matmul n (matmul n (dagger V) M) V) =
              matmul n (matmul n (dagger V) M) V).
  { rewrite dagger_matmul, dagger_matmul, dagger_dagger.
    rewrite (matmul_sandwich n (dagger V) (dagger M) M V HH).
    symmetry. apply matmul_assoc. }
  unfold dagger at 1. unfold Madd, RtoM.
  rewrite Cconj_add. f_equal.
  - change ((matmul n (matmul n (dagger V) M) V j i)^*)%C
      with (dagger (matmul n (matmul n (dagger V) M) V) i j).
    rewrite E. reflexivity.
  - rewrite (HD j i Hj Hi). apply complex_eq; simpl; ring.
Qed.

Lemma rotating_frame_hermitian_witness :
  hermitian 2 (rotating_frame 2 eye (H_levels 0) (fun _ _ => Czero)
                 (fun _ _ => 0)).
Proof.
  apply (rotating_frame_hermitian 2 eye (H_levels 0) (fun _ _ => Czero)
           (fun _ _ => 0)).
  - intros i j _ _. unfold dagger, Madd, H_levels, diag.
    rewrite (Nat.eqb_sym j i).
    destruct (Nat.eqb i j) eqn:E; [|cring].
    apply Nat.eqb_eq in E. subst j. cring.
  - reflexivity.
Defined.

(** X6.  When [(D, V)] is an eigensystem of the slow Hamiltonian, the slow
    part of [H_rot] is diagonal: [H_rot] is the diagonal matrix of the slow
    eigenvalues plus the coupling in the slow eigenbasis plus the frame
    shift. *)
Theorem rotating_frame_slow_part_diagonal
  (n : nat) (D : Rvec) (V H_slow_i H_mu_i : Mat) (D_mu : RMat) :
  eigensystem n H_slow_i (D, V) ->
  Meq n n (rotating_frame n V H_slow_i H_mu_i D_mu)
    (Madd (Madd (diag (fun k => RtoC (D k)))
                (matmul n (matmul n (dagger V) H_mu_i) V))
          (RtoM D_mu)).
Proof.
  intros HS i j Hi Hj. unfold rotating_frame.
  rewrite matmul_add_distr_l, matmul_add_distr_r.
  unfold Madd. rewrite (slow_part_diagonal n H_slow_i D V HS i j Hi Hj).
  reflexivity.
Qed.

Lemma rotating_frame_slow_part_diagonal_witness :
  Meq 2 2
    (rotating_frame 2 eye (H_levels 0) (fun _ _ => Czero) (fun _ _ => 0))
    (Madd (Madd (diag (fun k => RtoC (Re (H_levels 0 k k))))
                (matmul 2 (matmul 2 (dagger eye) (fun _ _ => Czero)) eye))
          (RtoM (fun _ _ => 0))).
Proof.
  apply (rotating_frame_slow_part_diagonal 2
           (fun k => Re (H_levels 0 k k)) eye (H_levels 0)
           (fun _ _ => Czero) (fun _ _ => 0)).
  apply (H_levels_eigensystem 2 0).
Defined.

(** X7.  What the rotating-frame step diagonalizes: when [V] is unitary
    and [(D_rot, V_rot)] is an eigensystem of [H_rot], the pair
    [(D_rot, V @ V_rot)] the propagator is built from is an eigensystem of
    [H_slow + H_mu + V @ D_mu @ V.conj().T], and the propagator of lines
    466 to 476 is the single-operator propagator of that eigensystem. *)
Theorem rotating_frame_effective_hamiltonian
  (n : nat) (V H_slow_i H_mu_i : Mat) (D_mu : RMat) (D_rot : Rvec)
  (V_rot : Mat) (dt : R) :
  unitary n V ->
  eigensystem n (rotating_frame n V H_slow_i H_mu_i D_mu) (D_rot, V_rot) ->
  eigensystem n
    (Madd (Madd H_slow_i H_mu_i) (frame_shift_in_basis n V D_mu))
    (D_rot, matmul n V V_rot)
  /\ propagator_mu n V D_rot V_rot dt =
     propagator n D_rot (matmul n V V_rot) dt.
Proof.
  intros HV [HR HRE]. cbn [fst snd] in *.
  split; [|apply propagator_mu_eq].
  split; [apply unitary_matmul; assumption|]. cbn [fst snd].
  destruct HV as [HV1 HV2].
  set (M := Madd H_slow_i H_mu_i) in *.
  set (S := RtoM D_mu).
  set (Hrot := rotating_frame n V H_slow_i H_mu_i D_mu) in *.
  assert (E1 : Meq n n
                 (matmul n (Madd M (frame_shift_in_basis n V D_mu)) V)
                 (matmul n V Hrot)).
  { intros i j Hi Hj. unfold Hrot, rotating_frame, frame_shift_in_basis.
    fold M. fold S.
    rewrite matmul_add_distr_r, matmul_add_distr_l. unfold Madd. f_equal.
    - rewrite (matmul_assoc n (dagger V) M V), <- (matmul_assoc n V (dagger V)).
      unfold matmul at 2. 
      rewrite (Csum_ext n _ (fun k => (eye i k * matmul n M V k j)%C)).
      + symmetry. apply (matmul_eye_l n (matmul n M V) i j Hi).
      + intros k Hk. rewrite (HV2 i k Hi Hk). reflexivity.
    - rewrite (matmul_assoc n (matmul n V S) (dagger V) V).
      unfold matmul at 1.
      rewrite (Csum_ext n _ (fun k => (matmul n V S i k * eye k j)%C)).
      + apply (matmul_eye_r n (matmul n V S) i j Hj).
      + intros k Hk. rewrite (HV1 k j Hk Hj). reflexivity. }
  intros i j Hi Hj.
  rewrite <- matmul_assoc.
  transitivity (matmul n (matmul n V Hrot) V_rot i j).
  - unfold matmul at 1 4. apply Csum_ext. intros k Hk.
    rewrite (E1 i k Hi Hk). reflexivity.
  - rewrite !matmul_assoc. unfold matmul at 1 3. apply Csum_ext.
    intros k Hk. rewrite (HRE k j Hk Hj). reflexivity.
Qed.

Lemma rotating_frame_effective_hamiltonian_witness :
  propagator_mu 2 eye
    (fun k => Re (rotating_frame 2 eye (H_levels 0) (fun _ _ => Czero)
                    (fun _ _ => 0) k k)) eye 1 =
  propagator 2
    (fun k => Re (rotating_frame 2 eye (H_levels 0) (fun _ _ => Czero)
                    (fun _ _ => 0) k k)) (matmul 2 eye eye) 1.
Proof.
  apply (rotating_frame_effective_hamiltonian 2 eye (H_levels 0)
           (fun _ _ => Czero) (fun _ _ => 0)).
  - apply unitary_eye.
  - apply diagonal_eigensystem.
    pose proof (slow_part_diagonal 2 (H_levels 0)
                  (fun k => Re (H_levels 0 k k)) eye
                  (H_levels_eigensystem 2 0)) as Hrot.
    assert (Hz : forall i j, (i < 2)%nat -> (j < 2)%nat ->
                   rotating_frame 2 eye (H_levels 0) (fun _ _ => Czero)
                     (fun _ _ => 0) i j =
                   diag (fun k => RtoC (Re (H_levels 0 k k))) i j).
    { intros i j Hi Hj. unfold rotating_frame.
      rewrite matmul_add_distr_l, matmul_add_distr_r.
      unfold Madd, RtoM. rewrite (Hrot i j Hi Hj).
      change (RtoC 0) with Czero. rewrite Cadd_0_r.
      assert (Hm : matmul 2 (matmul 2 (dagger eye) (fun _ _ => Czero)) eye
                     i j = Czero).
      { rewrite matmul_eye_r by exact Hj. unfold matmul.
        rewrite (Csum_ext 2 _ (fun _ => Czero)); [apply Csum_0|].
        intros k _. apply Cmul_0_r. }
      rewrite Hm. apply Cadd_0_r. }
    intros i j Hi Hj. rewrite (Hz i j Hi Hj). unfold diag.
    destruct (Nat.eqb_spec i j) as [->|]; [|reflexivity].
    rewrite (Hz j j Hj Hj). unfold diag. rewrite Nat.eqb_refl. reflexivity.
Defined.

Section EngineMore.
Variable zheevd : Mat -> Rvec * Mat * Z.
Variable eigh : Mat -> Rvec * Mat.
Variable argsort : nat -> Rvec -> list nat.
Variable vector_to_state : Cvec -> list BasisState -> State.

(** ** A Hamiltonian that does not change *)




(** ** The first record *)



End EngineMore.



Section RunFacts.
Variable zheevd : Mat -> Rvec * Mat * Z.
Variable eigh : Mat -> Rvec * Mat.
Variable argsort : nat -> Rvec -> list nat.
Variable vector_to_state : Cvec -> list BasisState -> State.

(** ** Edge cases of [run] *)


(** X10.  [run] asked for zero samples raises [IndexError] at
    [t_array[0]], before any eigensolver is called, both without microwave
    fields and with an empty list of them. *)
Theorem run_without_samples_raises (self : Simulator) :
  microwave_fields self = None \/ microwave_fields self = Some [] ->
  run zheevd eigh argsort vector_to_state self 0 =
  (inl (IndexError "index 0 is out of bounds"), []).
Proof.
  intros [Hmw|Hmw].
  - rewrite run_no_microwaves by exact Hmw. reflexivity.
  - unfold run. rewrite Hmw. reflexivity.
Qed.






End RunFacts.


Lemma run_without_samples_raises_witness :
  run zheevd_diagonal eigh_diagonal argsort_identity
    vector_to_state_const two_levels 0 =
  (inl (IndexError "index 0 is out of bounds"), []).
Proof.
  apply (run_without_samples_raises zheevd_diagonal eigh_diagonal
           argsort_identity vector_to_state_const two_levels). left. reflexivity.
Defined.


Section RunAgain.
Variable zheevd : Mat -> Rvec * Mat * Z.
Variable eigh : Mat -> Rvec * Mat.
Variable argsort : nat -> Rvec -> list nat.
Variable vector_to_state : Cvec -> list BasisState -> State.

(** ** The simulator after a run *)





(** ** The grid and the positions of a result *)


End RunAgain.



(** ** The couplings *)

Lemma for_each_guard {S X : Type} (P : X -> bool) (e : exn)
  (body : S -> X -> Py S) (xs : list X) (s : S) :
  (forall s x, body s x = if P x then (inl e, []) else ret s) ->
  for_each xs body s = if existsb P xs then (inl e, []) else ret s.
Proof.
  intros Hb. induction xs as [|x xs IH]; [reflexivity|].
  cbn [for_each existsb]. rewrite Hb.
  destruct (P x); [reflexivity|]. rewrite bind_ret. exact IH.
Qed.

(** X15.  [make_H_mu] never returns a coupling: when some pair of basis
    states [i <= j] has the two values of [J] it is asked to couple, the
    first such pair makes it raise [NameError] for
    [calculate_microwave_ME]; when there is none it returns the zero
    matrix. *)
Theorem make_H_mu_raises_or_is_zero
  (J1 J2 : Z) (QN : list BasisState) (pol_vec : list R) :
  let N := List.length QN in
  let pair i j :=
    ((Z.eqb (J (nth i QN {| J := 0 |})) J1 &&
      Z.eqb (J (nth j QN {| J := 0 |})) J2) ||
     (Z.eqb (J (nth i QN {| J := 0 |})) J2 &&
      Z.eqb (J (nth j QN {| J := 0 |})) J1))%bool in
  make_H_mu J1 J2 QN pol_vec =
  (if existsb (fun i => existsb (pair i) (seq i (N - i))) (seq 0 N)
   then (inl (NameError "calculate_microwave_ME"), [])
   else ret (fun _ _ => Czero))
  /\ match make_H_mu J1 J2 QN pol_vec with
     | (inr H_mu, _) => forall i j, H_mu i j = Czero
     | (inl _, _) => True
     end.
Proof.
  intros N pair.
  assert (E : make_H_mu J1 J2 QN pol_vec =
              if existsb (fun i => existsb (pair i) (seq i (N - i))) (seq 0 N)
              then (inl (NameError "calculate_microwave_ME"), [])
              else ret (fun _ _ => Czero)).
  { unfold make_H_mu. fold N.
    rewrite (for_each_guard
               (fun i => existsb (pair i) (seq i (N - i)))
               (NameError "calculate_microwave_ME")).
    - destruct (existsb _ (seq 0 N)); [reflexivity|].
      rewrite bind_ret. unfold ret. do 2 f_equal.
      extensionality i. extensionality j.
      destruct (Nat.eqb i j); cring.
    - intros H_mu i.
      apply (for_each_guard (pair i) (NameError "calculate_microwave_ME")).
      intros H_mu' j. unfold pair.
      destruct (_ || _)%bool; reflexivity. }
  split; [exact E|]. rewrite E.
  destruct (existsb _ (seq 0 N)); [exact I|]. intros i j. reflexivity.
Qed.

Lemma H_mu_tot_t_loop (fs : list (R -> Mat)) (t : R) (M : Mat) :
  for_each (map VFun fs)
    (fun H_mu_tot H_mu_t => H <- call_value H_mu_t t ;; ret (Madd H_mu_tot H))
    M =
  ret (fold_left Madd (map (fun g => g t) fs) M).
Proof.
  revert M. induction fs as [|f fs IH]; intros M; [reflexivity|].
  cbn [map for_each fold_left call_value]. rewrite !bind_ret. apply IH.
Qed.

Lemma fold_left_Madd_entry (Ms : list Mat) (M : Mat) i j :
  fold_left Madd Ms M i j = (M i j + Clsum (map (fun A => A i j) Ms))%C.
Proof.
  revert M. induction Ms as [|A Ms IH]; intros M; cbn [fold_left map Clsum].
  - symmetry. apply Cadd_0_r.
  - rewrite IH. unfold Madd. cring.
Qed.

(** X16.  The closure [H_mu_tot_t] of [run] raises [IndexError] on an
    empty list of couplings, and on a list of functions it returns, with
    no call logged, the matrix whose entries are the sums of the entries
    of all their values at [t]; the order of the list does not matter. *)
Theorem H_mu_tot_t_sums (f : R -> Mat) (fs gs : list (R -> Mat)) (t : R) :
  Permutation (f :: fs) gs ->
  H_mu_tot_t [] t = (inl (IndexError "list index out of range"), [])
  /\ (exists M,
        H_mu_tot_t (map VFun (f :: fs)) t = (inr M, [])
        /\ forall i j, M i j = Clsum (map (fun g => g t i j) (f :: fs)))
  /\ H_mu_tot_t (map VFun gs) t = H_mu_tot_t (map VFun (f :: fs)) t.
Proof.
  intros Hp.
  assert (Hsum : forall g hs,
            H_mu_tot_t (map VFun (g :: hs)) t =
            ret (fun i j => Clsum (map (fun h => h t i j) (g :: hs)))).
  { intros g hs. cbn [H_mu_tot_t map call_value]. rewrite bind_ret.
    rewrite H_mu_tot_t_loop. unfold ret. do 2 f_equal.
    extensionality i. extensionality j.
    rewrite fold_left_Madd_entry, map_map. reflexivity. }
  split; [reflexivity|]. split.
  - eexists. split; [apply Hsum|]. reflexivity.
  - destruct gs as [|g hs].
    + apply Permutation_sym, Permutation_nil in Hp. discriminate.
    + rewrite !Hsum. unfold ret. do 2 f_equal.
      extensionality i. extensionality j. apply Clsum_perm.
      apply Permutation_map, Permutation_sym, Hp.
Qed.

Lemma H_mu_tot_t_sums_witness :
  H_mu_tot_t (map VFun [H_levels; (fun _ => eye)]) 0 =
  H_mu_tot_t (map VFun [(fun _ => eye); H_levels]) 0.
Proof.
  apply (H_mu_tot_t_sums (fun _ => eye) [H_levels]
           [H_levels; (fun _ => eye)] 0).
  apply perm_swap.
Defined.
